(** * astro-masonry: the layout decisions of [src/components/masonry.js]

    A shallow embedding of the [MasonryLayout] class and of [throttle],
    and the properties of the column count, of the distribution of the
    items over the columns, of the constructor's error handling and of
    the rate limiter of the resize listener.

    Conventions of the embedding.
    - JavaScript numbers that occur here (widths, thresholds, column counts,
      timestamps, indices) are integers; they are taken in [Z], which is
      exact for the doubles of the source inside the safe-integer range.
    - [undefined] is the [None] of an [option]; the [NaN] that [%] produces
      has a constructor of its own in [number].
    - A breakpoint object the page supplies has numeral keys and the key
      [default]; it is the record [Table.t], whose [thresholds] are the
      numeral keys already read as numbers (each key is the canonical
      numeral of its number, so [Number] and the property lookup agree).
    - DOM nodes are told apart by their place: a column is the list of its
      children, the columns of the container are a list of columns, and
      [originalItems], made once from [container.children], lists distinct
      nodes, one per occurrence; [appendChild] on a fresh or emptied column
      therefore never takes a node out of another column.
    - The console is a list of entries, written in order.
    - Class names and inline styles are presentation glue and are not
      modelled. The methods take the options by their truth value;
      [parseMasonryOptions], which makes them from the attributes, is
      modelled on its own further down. *)

From Stdlib Require Import ZArith Lia.
From stdpp Require Import base option list sorting gmap strings.

Local Open Scope Z_scope.

(** ** Values of the platform *)

(** A property that holds a number, or is absent ([undefined]). *)
Definition value : Type := option Z.

(** What an arithmetic operator returns. *)
Inductive number : Type :=
| NaN
| Int (z : Z).

(** Exceptions: the engine's [TypeError], and the [Error] that a [throw]
    statement of the program would raise. *)
Inductive exn : Type :=
| TypeError (message : string)
| Error (message : string).

Inductive result (A : Type) : Type :=
| Ok (a : A)
| Throw (e : exn).
Arguments Ok {A} a.
Arguments Throw {A} e.

Module Table.
(** [{ "100": 1, "300": 2, "default": 3 }] is
    [{| thresholds := {[100 := 1; 300 := 2]}; default := Some 3 |}]. *)
Record t : Type := mk {
  thresholds : gmap Z Z;
  default : value
}.
End Table.

(** What [this.breakpointCols] can hold. *)
Inductive jsvalue : Type :=
| JUndefined
| JNull
| JNumber (z : Z)
| JObject (T : Table.t).

(** [typeof v === "object"]: true of [null] as well. *)
Definition typeof_object (v : jsvalue) : bool :=
  match v with
  | JNull | JObject _ => true
  | JUndefined | JNumber _ => false
  end.

(** The [data-masonry-*] options [createLayout] and the logging read. *)
Record options : Type := {
  sortByHeight : bool;
  horizontalOrder : bool;
  debug : bool
}.

(** ** The console and the monad of the methods *)

Inductive console_entry : Type :=
| error_invalid_format (attr : option string)
    (* console.error("Invalid `breakpointCols` format:", breakpointColsAttr) *)
| log_parsed (breakpointCols : jsvalue)
    (* console.log("Parsed breakpointCols:", this.breakpointCols) *)
| log_options (masonryOptions : options)
    (* console.log("Masonry options:", this.masonryOptions) *)
| log_matched (breakpoint : Z) (cols : value)
    (* console.log(`Matched breakpoint: ${breakpoint}px -> ${matchedBreakpoint} columns`) *)
| log_resizing (old new : value).
    (* console.log("Resizing: Changing column count from", old, "to", new) *)

(** A method call ends normally or by an exception, and leaves what it
    wrote on the console. *)
Definition M (A : Type) : Type := (result A * list console_entry)%type.

Definition ret {A} (a : A) : M A := (Ok a, []).
Definition throw {A} (e : exn) : M A := (Throw e, []).
Definition console (e : console_entry) : M unit := (Ok tt, [e]).
Definition bind {A B} (m : M A) (k : A -> M B) : M B :=
  match m with
  | (Ok a, out) => let '(r, out') := k a in (r, out ++ out')
  | (Throw e, out) => (Throw e, out)
  end.
Definition lift {A} (r : result A) : M A := (r, []).
Definition when (b : bool) (m : M unit) : M unit := if b then m else ret tt.

Notation "'let*' x := m 'in' k" := (bind m (fun x => k))
  (at level 10, x name, m at level 100, k at level 200).
Notation "m ;; k" := (bind m (fun _ => k))
  (at level 100, k at level 200, right associativity).

(** ** [calculateColumnCount] *)

(** [Object.keys(this.breakpointCols).filter((key) => key !== "default").map(Number)] *)
Definition threshold_keys (T : Table.t) : list Z :=
  (map_to_list (Table.thresholds T)).*1.

(** [.sort((a, b) => a - b)] *)
Definition sort_ascending (keys : list Z) : list Z := merge_sort Z.le keys.

(** The [for ... of] loop with its [break]. *)
Fixpoint match_breakpoint (dbg : bool) (windowWidth : Z) (T : Table.t)
    (breakpoints : list Z) (matchedBreakpoint : value) : M value :=
  match breakpoints with
  | [] => ret matchedBreakpoint
  | breakpoint :: rest =>
      if windowWidth <=? breakpoint then
        let matchedBreakpoint := Table.thresholds T !! breakpoint in
        when dbg (console (log_matched breakpoint matchedBreakpoint)) ;;
        ret matchedBreakpoint
      else match_breakpoint dbg windowWidth T rest matchedBreakpoint
  end.

Definition defaultCols : Z := 2.

Definition calculateColumnCount (masonryOptions : options) (breakpointCols : jsvalue)
    (windowWidth : Z) : M value :=
  if typeof_object breakpointCols then
    match breakpointCols with
    | JObject T =>
        let breakpoints := sort_ascending (threshold_keys T) in
        match_breakpoint (debug masonryOptions) windowWidth T breakpoints (Table.default T)
    | _ => (* Object.keys(null) *)
        throw (TypeError "Cannot convert undefined or null to object")
    end
  else
    match breakpointCols with
    | JUndefined =>
        throw (TypeError "Cannot read properties of undefined (reading 'default')")
    | _ => (* a number has no [default]: undefined || this.defaultCols *)
        ret (Some defaultCols)
    end.

(** ** [createLayout] *)

(** [Array.from({ length: columnCount }, ...)]: the length of an array-like,
    zero for [undefined] and for a negative number. *)
Definition ToLength (columnCount : value) : nat :=
  match columnCount with
  | Some c => Z.to_nat c
  | None => 0%nat
  end.

(** [index % columnCount], the remainder with the sign of the dividend. *)
Definition js_rem (index : Z) (columnCount : value) : number :=
  match columnCount with
  | Some c => if c =? 0 then NaN else Int (Z.rem index c)
  | None => NaN
  end.

(** [columns[columnIndex]] on an array of [n] columns: the place of the
    column, or [undefined]. *)
Definition array_index (n : nat) (columnIndex : number) : option nat :=
  match columnIndex with
  | Int z => if (0 <=? z) && (z <? Z.of_nat n) then Some (Z.to_nat z) else None
  | NaN => None
  end.

(** [columns.reduce((shortest, current) =>
       measure(current) < measure(shortest) ? current : shortest, columns[0])]
    over an array of [n] columns, each named by its place. With an initial
    value the callback runs on every element from the first; on an empty
    array it never runs and the result is the initial value, [columns[0]],
    which is [undefined]. *)
Definition reduce_least (measure : nat -> Z) (n : nat) : option nat :=
  match n with
  | O => None
  | S _ =>
      Some (foldl (fun shortest current =>
                     if measure current <? measure shortest then current else shortest)
                  0%nat (seq 0 n))
  end.

(** The columns once [item] is the last child of the column at place [j]. *)
Definition append_to {Item} (j : nat) (item : Item) (cols : list (list Item))
    : list (list Item) :=
  alter (fun children => children ++ [item]) j cols.

Definition appendChild_of_undefined : exn :=
  TypeError "Cannot read properties of undefined (reading 'appendChild')".

Section Layout.
Context {Item : Type}.

(** [column.offsetHeight]: the rendered height of the column at place [k]
    while the columns of the container hold [cols]. *)
Variable offsetHeight : list (list Item) -> nat -> Z.

(** [column.children.length] *)
Definition children_length (cols : list (list Item)) (k : nat) : Z :=
  Z.of_nat (from_option length 0%nat (cols !! k)).

(** [column.appendChild(item)]; on [undefined] the property access raises. *)
Definition appendChild (column : option nat) (item : Item)
    (cols : list (list Item)) : result (list (list Item)) :=
  match column with
  | Some k => Ok (append_to k item cols)
  | None => Throw appendChild_of_undefined
  end.

(** [originalItems.forEach((item, index) => ...)]; an exception of the
    callback ends the loop. *)
Fixpoint forEach (callback : Item -> nat -> list (list Item) -> result (list (list Item)))
    (items : list Item) (index : nat) (cols : list (list Item))
    : result (list (list Item)) :=
  match items with
  | [] => Ok cols
  | item :: rest =>
      match callback item index cols with
      | Ok cols' => forEach callback rest (S index) cols'
      | Throw e => Throw e
      end
  end.

(** The three callbacks of [createLayout]. *)
Definition place_by_height (item : Item) (index : nat) (cols : list (list Item))
    : result (list (list Item)) :=
  let columnWithLeastHeight := reduce_least (offsetHeight cols) (length cols) in
  appendChild columnWithLeastHeight item cols.

Definition place_by_count (item : Item) (index : nat) (cols : list (list Item))
    : result (list (list Item)) :=
  let columnWithFewestItems := reduce_least (children_length cols) (length cols) in
  appendChild columnWithFewestItems item cols.

Definition place_by_index (columnCount : value) (item : Item) (index : nat)
    (cols : list (list Item)) : result (list (list Item)) :=
  let columnIndex := js_rem (Z.of_nat index) columnCount in
  appendChild (array_index (length cols) columnIndex) item cols.

(** The columns the items go to: the existing ones, emptied, when there
    are [columnCount] of them, and new ones otherwise. *)
Definition prepare_columns (columnCount : value) (existingColumns : list (list Item))
    : list (list Item) :=
  if decide (Some (Z.of_nat (length existingColumns)) = columnCount)
  then (fun _ => []) <$> existingColumns
  else replicate (ToLength columnCount) [].

(** [createLayout()]. The fields of [this] it reads are arguments;
    [existingColumns] are the column elements found in the container. The
    result is the columns of the container when the method returns; when it
    raises, the embedding keeps the exception only. *)
Definition createLayout (masonryOptions : options) (columnCount : value)
    (originalItems : list Item) (existingColumns : list (list Item))
    : result (list (list Item)) :=
  let columns := prepare_columns columnCount existingColumns in
  if sortByHeight masonryOptions then
    forEach place_by_height originalItems 0 columns
  else if horizontalOrder masonryOptions then
    forEach place_by_count originalItems 0 columns
  else
    forEach (place_by_index columnCount) originalItems 0 columns.

(** ** The constructor and [handleResize] *)

Record MasonryLayout : Type := {
  container : list (list Item);
  originalItems : list Item;
  breakpointCols : jsvalue;
  columnCount : value;
  masonryOptions : options
}.

(** A number that [JSON.parse] returns, by the decimal that the conversion
    of the number to a string writes for it (the shortest decimal that
    reads back as the number): [mantissa * 10 ^ exponent]. The integer [3]
    is [{| mantissa := 3; exponent := 0 |}], [2.5] is
    [{| mantissa := 25; exponent := -1 |}], and [1e21] is
    [{| mantissa := 1; exponent := 21 |}]. The numbers of the platform end
    at [largest_number]; a text that denotes more is read as [Infinity],
    which has no decimal and is outside the embedding. *)
Record decimal : Type := {
  mantissa : Z;
  exponent : Z
}.

Definition integer (z : Z) : decimal := {| mantissa := z; exponent := 0 |}.

(** [Number.MAX_VALUE], 1.7976931348623157e308. *)
Definition largest_number : Z := 17976931348623157 * 10 ^ 292.

(** [Number.MAX_SAFE_INTEGER]: up to it every integer is a number of the
    platform, written by its own digits. *)
Definition MAX_SAFE_INTEGER : Z := 2 ^ 53 - 1.

(** The first digit of the numeral of [m >= 1]; it has no more digits than
    [m] has bits. *)
Fixpoint first_digit_of (fuel : nat) (m : Z) : Z :=
  match fuel with
  | O => m
  | S fuel' => if m <? 10 then m else first_digit_of fuel' (m / 10)
  end.

Definition first_digit (m : Z) : Z := first_digit_of (Z.to_nat (Z.log2 m)) m.

(** How a number becomes a string: when [10^-6 <= |x| < 10^21] the digits
    are written in place, with a point before the fraction if there is
    one; any other number but zero is written as one digit, the further
    digits after a point, and the power of ten ([1e+21], [1.5e+21],
    [5e-7]). *)
Definition in_place (x : decimal) : bool :=
  let m := Z.abs (mantissa x) in
  let e := exponent x in
  (if 0 <=? e + 6 then true else 10 ^ (- (e + 6)) <=? m)
  && (if 0 <=? e then m * 10 ^ e <? 10 ^ 21 else m <? 10 ^ (21 - e)).

(** [parseInt(x, 10)] of a number [x]: the number becomes its string, and
    the result is what the digits from the start of the string (after the
    sign) up to the point or the [e] denote. For a number written in place
    that is its integer part; for any other it is its first digit. (The
    zero that comes of [-0.5] is negative in the source; as a column count
    it behaves as zero, and the embedding keeps no sign for it.) *)
Definition parseInt (x : decimal) : Z :=
  let m := mantissa x in
  let e := exponent x in
  if m =? 0 then 0
  else if in_place x then (if 0 <=? e then m * 10 ^ e else Z.quot m (10 ^ (- e)))
  else Z.sgn m * first_digit (Z.abs m).

(** What [JSON.parse] makes of [data-breakpoint-cols]: it raises a
    [SyntaxError] on the text [attr] ([None] is a missing attribute, which
    [JSON.parse] rejects too), or returns a value: [null], a number, or an
    object, which is a table (an array is the object of its indices, with
    no [default]). A string or a boolean is outside the embedding:
    [parseInt] of it can be [NaN], which no column count of the embedding
    is; so is an object with an entry that is not an integer. *)
Inductive json : Type :=
| json_null
| json_number (x : decimal)
| json_object (T : Table.t).

Inductive parse_outcome : Type :=
| SyntaxError (attr : option string)
| Parsed (parsed : json).

(** The [try ... catch] of the constructor: what [this.breakpointCols]
    becomes. [null] is an object for [typeof] and is kept as it is. *)
Definition parse_breakpointCols (breakpointColsAttr : parse_outcome) : M jsvalue :=
  match breakpointColsAttr with
  | Parsed json_null => ret JNull
  | Parsed (json_object T) => ret (JObject T)
  | Parsed (json_number x) => ret (JObject (Table.mk ∅ (Some (parseInt x))))
  | SyntaxError attr =>
      console (error_invalid_format attr) ;;
      ret (JObject (Table.mk ∅ (Some defaultCols)))
  end.

(** [new MasonryLayout(container)], up to the layout it requests for the
    next frame. [items] are the children of the container, [opts] is what
    [parseMasonryOptions] returns, [innerWidth] is [window.innerWidth]; the
    container has no column element yet. *)
Definition constructor (items : list Item) (opts : options)
    (breakpointColsAttr : parse_outcome) (innerWidth : Z) : M MasonryLayout :=
  let* bc := parse_breakpointCols breakpointColsAttr in
  when (debug opts) (console (log_parsed bc) ;; console (log_options opts)) ;;
  let* count := calculateColumnCount opts bc innerWidth in
  ret {| container := []; originalItems := items; breakpointCols := bc;
         columnCount := count; masonryOptions := opts |}.

(** [initializeMasonry()] on one container: a layout object is made only
    when the container has children. *)
Definition initializeMasonry (items : list Item) (opts : options)
    (breakpointColsAttr : parse_outcome) (innerWidth : Z) : option (M MasonryLayout) :=
  match items with
  | [] => None
  | _ :: _ => Some (constructor items opts breakpointColsAttr innerWidth)
  end.

(** [this.createLayout()] as a method. *)
Definition createLayout_method (this : MasonryLayout) : M MasonryLayout :=
  let* cols := lift (createLayout (masonryOptions this) (columnCount this)
                       (originalItems this) (container this)) in
  ret {| container := cols; originalItems := originalItems this;
         breakpointCols := breakpointCols this; columnCount := columnCount this;
         masonryOptions := masonryOptions this |}.

Definition handleResize (this : MasonryLayout) (innerWidth : Z) : M MasonryLayout :=
  let* newColumnCount :=
    calculateColumnCount (masonryOptions this) (breakpointCols this) innerWidth in
  if decide (newColumnCount <> columnCount this) then
    when (debug (masonryOptions this))
         (console (log_resizing (columnCount this) newColumnCount)) ;;
    createLayout_method
      {| container := container this; originalItems := originalItems this;
         breakpointCols := breakpointCols this; columnCount := newColumnCount;
         masonryOptions := masonryOptions this |}
  else ret this.
End Layout.

(** ** [throttle] *)

Section Throttle.
Context {World Args : Type}.

(** [func] acts on the world; [limit] is the window in milliseconds. *)
Variable func : Args -> World -> World.
Variable limit : Z.

(** A timeout that [setTimeout] registered: when it is due, and the [now]
    and [args] its callback closes over. *)
Record timeout : Type := {
  due : Z;
  call_now : Z;
  call_args : Args
}.

(** The variables of the closure. [lastFunc] is the pending timeout:
    [clearTimeout] before every [setTimeout] leaves at most one, and the
    identifier of a timeout that has run is inert. *)
Record closure : Type := {
  lastFunc : option timeout;
  lastRan : option Z
}.

Definition fresh : closure := {| lastFunc := None; lastRan := None |}.

(** [throttle(func, limit)]: the function it returns, called with [args]
    while [Date.now()] is [now]. [!lastRan] holds of [undefined] and of
    zero. A delay below zero is a delay of zero. *)
Definition throttle (now : Z) (args : Args) (s : closure * World) : closure * World :=
  let '(c, w) := s in
  let leading := ({| lastFunc := lastFunc c; lastRan := Some now |}, func args w) in
  match lastRan c with
  | None => leading
  | Some ran =>
      if ran =? 0 then leading
      else
        let delay := limit - (now - ran) in
        ({| lastFunc := Some {| due := now + Z.max 0 delay; call_now := now;
                                call_args := args |};
            lastRan := Some ran |}, w)
  end.

(** The callback given to [setTimeout]: [now] is the time of the call that
    registered it, [lastRan] is read when it runs. *)
Definition timeout_callback (t : timeout) (s : closure * World) : closure * World :=
  let '(c, w) := s in
  match lastRan c with
  | Some ran =>
      if limit <=? call_now t - ran
      then ({| lastFunc := lastFunc c; lastRan := Some (call_now t) |},
            func (call_args t) w)
      else s
  | None => s
  end.

(** The event loop: the pending timeout runs once the clock has reached
    its due time. *)
Definition run_due (clock : Z) (s : closure * World) : closure * World :=
  let '(c, w) := s in
  match lastFunc c with
  | Some t =>
      if due t <=? clock
      then timeout_callback t ({| lastFunc := None; lastRan := lastRan c |}, w)
      else s
  | None => s
  end.

(** A signal: at time [at_time] the world changes by [change] and the
    throttled function is called with [with_args]. *)
Record signal : Type := {
  at_time : Z;
  change : World -> World;
  with_args : Args
}.

Definition deliver (s : closure * World) (e : signal) : closure * World :=
  let '(c, w) := run_due (at_time e) s in
  throttle (at_time e) (with_args e) (c, change e w).

(** No further signal: whatever is pending runs. *)
Definition silence (s : closure * World) : closure * World :=
  let '(c, w) := s in
  match lastFunc c with
  | Some t => timeout_callback t ({| lastFunc := None; lastRan := lastRan c |}, w)
  | None => s
  end.

Definition burst_then_silence (signals : list signal) (w : World) : closure * World :=
  silence (foldl deliver (fresh, w) signals).

(** Inside the window that the first call opened: [lastRan] is the time
    [t0] of that call, and a pending timeout is due at the end of the
    window and closes over a [now] inside it. *)
Definition in_window (t0 : Z) (s : closure * World) : Prop :=
  lastRan s.1 = Some t0 /\
  match lastFunc s.1 with
  | Some t => due t = t0 + limit /\ call_now t - t0 < limit
  | None => True
  end.
End Throttle.

(** ** The resize listener of a page *)

Section Page.
Context {Item : Type}.
Variable offsetHeight : list (list Item) -> nat -> Z.

(** The window, the layout object, and the widths at which [handleResize]
    has run, oldest first. After an uncaught exception the embedding does
    not follow the page. *)
Record page : Type := {
  innerWidth : Z;
  layout : M (@MasonryLayout Item);
  handled : list Z
}.

(** [this.handleResize.bind(this)] *)
Definition handleResize_bound (_ : unit) (p : page) : page :=
  {| innerWidth := innerWidth p;
     layout := let* this := layout p in handleResize offsetHeight this (innerWidth p);
     handled := handled p ++ [innerWidth p] |}.

(** The window is resized to [width] at time [t]; the listener is called. *)
Definition resize (t width : Z) : @signal page unit :=
  {| at_time := t;
     change := fun p => {| innerWidth := width; layout := layout p; handled := handled p |};
     with_args := tt |}.

(** A page after the constructor and the first frame. *)
Definition loaded (items : list Item) (opts : options) (attr : parse_outcome)
    (width : Z) : page :=
  {| innerWidth := width;
     layout := let* this := constructor items opts attr width in
               createLayout_method offsetHeight this;
     handled := [] |}.

(** [this.resizeHandler = throttle(this.handleResize.bind(this), 200)],
    then resizes at the given times to the given widths, then silence. *)
Definition after_resizes (p : page) (signals : list (Z * Z)) : page :=
  (burst_then_silence handleResize_bound 200
     ((fun s => resize s.1 s.2) <$> signals) p).2.
End Page.

(** ** Notions of the specification *)

(** The resolver: the value [calculateColumnCount] returns on a table. *)
Definition resolve (w : Z) (T : Table.t) : result value :=
  (calculateColumnCount {| sortByHeight := false; horizontalOrder := false; debug := false |}
     (JObject T) w).1.

(** [t] is the smallest threshold of [T] that [w] does not exceed. *)
Definition first_match (w : Z) (T : Table.t) (t : Z) : Prop :=
  is_Some (Table.thresholds T !! t) /\ w <= t /\
  forall t', is_Some (Table.thresholds T !! t') -> w <= t' -> t <= t'.

(** What a match writes on the console. *)
Definition matched_entry (opts : options) (t : Z) (cols : value) : list console_entry :=
  if debug opts then [log_matched t cols] else [].

Definition T_100_300 : Table.t := Table.mk {[ 100 := 1; 300 := 2 ]} (Some 3).

(** The table of the [catch] branch. *)
Definition fallback : Table.t := Table.mk ∅ (Some defaultCols).

(** The strategy the options select; [sortByHeight] is tested first. *)
Inductive strategy : Type := sequential | fewest_items | shortest_height.

Definition strategy_of (opts : options) : strategy :=
  if sortByHeight opts then shortest_height
  else if horizontalOrder opts then fewest_items
  else sequential.

Definition sequential_options : options :=
  {| sortByHeight := false; horizontalOrder := false; debug := false |}.
Definition fewest_items_options : options :=
  {| sortByHeight := false; horizontalOrder := true; debug := false |}.
Definition shortest_height_options : options :=
  {| sortByHeight := true; horizontalOrder := false; debug := false |}.

(** Column [j] is the first of [n] columns with the least [measure]. *)
Definition first_least (measure : nat -> Z) (n j : nat) : Prop :=
  (j < n)%nat /\ (forall k, (k < n)%nat -> measure j <= measure k)
  /\ (forall k, (k < j)%nat -> measure j < measure k).

(** A callback that appends the item to some column of the [n] there are. *)
Definition appends {Item} (n : nat)
    (callback : Item -> nat -> list (list Item) -> result (list (list Item))) : Prop :=
  forall item index cols, length cols = n ->
    exists j, (j < n)%nat /\ callback item index cols = Ok (append_to j item cols).

(** The callback [createLayout] runs under the options. *)
Definition callback_of {Item} (offsetHeight : list (list Item) -> nat -> Z)
    (opts : options) (columnCount : value)
    : Item -> nat -> list (list Item) -> result (list (list Item)) :=
  match strategy_of opts with
  | shortest_height => place_by_height offsetHeight
  | fewest_items => place_by_count
  | sequential => place_by_index columnCount
  end.

(** The columns after [k] items dealt in turn to [c] columns: all hold
    [k / c] items, and the first [k mod c] one more. *)
Definition dealt {Item} (cols : list (list Item)) (c k : nat) : Prop :=
  length cols = c /\
  forall j col, cols !! j = Some col ->
    length col = (k / c + (if decide (j < k mod c) then 1 else 0))%nat.

(** Items with their original index, and sorting by it. *)
Definition by_index {Item} (p q : nat * Item) : Prop := (p.1 <= q.1)%nat.
Global Instance by_index_dec {Item} (p q : nat * Item) : Decision (by_index p q) :=
  decide (p.1 <= q.1)%nat.
Definition with_index {Item} (items : list Item) : list (nat * Item) := imap pair items.
Definition resort {Item} (l : list (nat * Item)) : list (nat * Item) := merge_sort by_index l.

(** A call that ends by an [Error] the program raised itself. *)
Definition rejected {A} (m : M A) : Prop := exists message, m.1 = Throw (Error message).
Definition fails_descriptively {A} (r : result A) : Prop :=
  exists message, r = Throw (Error message).

(** A height provider for examples: every column is as high as any other. *)
Definition flat : list (list nat) -> nat -> Z := fun _ _ => 0.

(** A page with three items and the table [T_100_300], loaded at width 400,
    and two resizes 50 ms apart. *)
Definition example_page : @page nat :=
  loaded flat [1; 2; 3]%nat sequential_options (Parsed (json_object T_100_300)) 400.
Definition example_burst : list (Z * Z) := [(1000, 250); (1050, 50)].

(** ** Further notions for the properties *)

(** A height provider that adds up a weight per item: the height of a
    column is the sum of the weights of its children. *)
Definition additive_height {Item} (weight : Item -> Z) (cols : list (list Item))
    (k : nat) : Z :=
  from_option (fun col => foldr (fun x acc => weight x + acc) 0 col) 0 (cols !! k).

(** A column count for which [createLayout] makes no column. *)
Definition no_columns (columnCount : value) : Prop :=
  match columnCount with
  | Some c => c <= 0
  | None => True
  end.

(** A table as the data model wants it: a default of at least one column,
    and at least one column at every threshold. *)
Definition valid_table (T : Table.t) : Prop :=
  (exists d, Table.default T = Some d /\ 1 <= d)
  /\ forall t c, Table.thresholds T !! t = Some c -> 1 <= c.

(** A layout object of the items under the table [T] whose container holds
    the items in as many columns as its column count says, at least one. *)
Definition well_laid_out {Item} (T : Table.t) (items : list Item) (opts : options)
    (this : @MasonryLayout Item) : Prop :=
  originalItems this = items /\ breakpointCols this = JObject T
  /\ masonryOptions this = opts
  /\ exists c : nat,
       columnCount this = Some (Z.of_nat c) /\ (0 < c)%nat
       /\ length (container this) = c /\ concat (container this) ≡ₚ items.


(** A world that records the calls that [func] serves, by the time of the
    call, and calls that change nothing else. *)
Definition record_call (t : Z) (served : list Z) : list Z := served ++ [t].

Definition call_at (t : Z) : @signal (list Z) Z :=
  {| at_time := t; change := fun served => served; with_args := t |}.



(** The served calls against the calls made so far: they are among them, in
    order; the call of a pending timeout is the last one made and is not
    among the served; and a timeout is pending only while [!lastRan] is
    false. *)
Definition served_of (made : list Z) (s : @closure Z * list Z) : Prop :=
  match lastFunc s.1 with
  | None => sublist s.2 made
  | Some t =>
      (exists before, made = before ++ [call_args t] /\ sublist s.2 before)
      /\ exists r, lastRan s.1 = Some r /\ r <> 0
  end.


(** ** [parseMasonryOptions] *)

From Stdlib Require Import Ascii.

Local Open Scope string_scope.

(** [s.startsWith(p)], with what follows the prefix. *)
Fixpoint strip_prefix (p s : string) : option string :=
  match p with
  | EmptyString => Some s
  | String a p' =>
      match s with
      | String b s' => if Ascii.eqb a b then strip_prefix p' s' else None
      | EmptyString => None
      end
  end.

Definition startsWith (s p : string) : bool :=
  match strip_prefix p s with
  | Some _ => true
  | None => false
  end.

(** [s.replace(pattern, '')] with a string pattern: the first occurrence
    goes. *)
Fixpoint remove_first (pattern s : string) : string :=
  match strip_prefix pattern s with
  | Some rest => rest
  | None =>
      match s with
      | EmptyString => EmptyString
      | String c s' => String c (remove_first pattern s')
      end
  end.

(** The class [[a-z]] and [letter.toUpperCase()] on it. *)
Definition is_lower (c : Ascii.ascii) : bool :=
  (97 <=? Ascii.nat_of_ascii c)%nat && (Ascii.nat_of_ascii c <=? 122)%nat.

Definition toUpperCase (c : Ascii.ascii) : Ascii.ascii :=
  if is_lower c then Ascii.ascii_of_nat (Ascii.nat_of_ascii c - 32) else c.

(** [s.replace(/-([a-z])/g, (match, letter) => letter.toUpperCase())]: from
    the left, every hyphen with a small letter after it becomes the capital
    letter, and the scan goes on after the letter. *)
Fixpoint camelCase (s : string) : string :=
  match s with
  | EmptyString => EmptyString
  | String c rest =>
      match rest with
      | String letter rest' =>
          if Ascii.eqb c "-"%char && is_lower letter
          then String (toUpperCase letter) (camelCase rest')
          else String c (camelCase rest)
      | EmptyString => String c EmptyString
      end
  end.

Definition optionName (name : string) : string :=
  camelCase (remove_first "data-masonry-" name).

Section ParseMasonryOptions.
(** The numbers and the JSON values of the platform, and its conversions of
    a string: [isNaN(value)], [parseFloat(value)] ([None] is [NaN]) and
    [JSON.parse(value)] ([None] is a [SyntaxError]); [is_zero] tells the
    number that is false as a condition, and [property_is_true j name]
    tells whether [j[name]] is true as a condition, for an object or an
    array [j] that [JSON.parse] returned. *)
Context {Number Json : Type}.
Variable isNaN : string -> bool.
Variable parseFloat : string -> option Number.
Variable JSON_parse : string -> option Json.
Variable is_zero : Number -> bool.
Variable property_is_true : Json -> string -> bool.

Inductive option_value : Type :=
| value_bool (b : bool)
| value_number (x : Number)
| value_string (s : string)
| value_json (j : Json).

(** The chain that parses [attr.value]. *)
Definition coerce (value : string) : option_value :=
  if String.eqb value "true" then value_bool true
  else if String.eqb value "false" then value_bool false
  else
    match (if negb (isNaN value) then parseFloat value else None) with
    | Some x => value_number x
    | None =>
        if startsWith value "{" || startsWith value "["
        then match JSON_parse value with
             | Some j => value_json j
             | None => value_string value
             end
        else value_string value
    end.

(** The object that [parseMasonryOptions] builds: its own properties, and
    the object or array that an assignment to [__proto__] has made its
    prototype; [None] while it has the prototype it was created with,
    [Object.prototype]. *)
Record options_object : Type := {
  own : gmap string option_value;
  prototype : option Json
}.

(** [options[optionName] = value]. Every name but one becomes an own
    property. [__proto__] is the accessor that [options] inherits from
    [Object.prototype]: the assignment runs its setter, which makes an
    object or an array the prototype of [options], does nothing with any
    other value, and in neither case creates a property. *)
Definition assign (options : options_object) (optionName : string) (value : option_value)
    : options_object :=
  if String.eqb optionName "__proto__" then
    match value with
    | value_json j => {| own := own options; prototype := Some j |}
    | _ => options
    end
  else {| own := <[optionName := value]> (own options); prototype := prototype options |}.

(** [parseMasonryOptions(container)] on the attributes of the container, in
    their order, each a name and a value. *)
Definition parseMasonryOptions (attributes : list (string * string)) : options_object :=
  foldl (fun options attr =>
           if startsWith attr.1 "data-masonry-"
           then assign options (optionName attr.1) (coerce attr.2)
           else options)
        {| own := ∅; prototype := None |} attributes.

(** An option as a condition: [undefined], [false], a zero, and the empty
    string are false; a value that [JSON.parse] made of a text that starts
    with a brace or a bracket is an object or an array, which is true. *)
Definition truthy (v : option option_value) : bool :=
  match v with
  | None => false
  | Some (value_bool b) => b
  | Some (value_number x) => negb (is_zero x)
  | Some (value_string s) => negb (String.eqb s "")
  | Some (value_json _) => true
  end.

(** [this.masonryOptions.name] as a condition: the own property when there
    is one, and otherwise the property of the prototype. [Object.prototype]
    has none of the names that the class reads, so without a prototype of
    its own making the option is [undefined]. *)
Definition read_option (masonryOptions : options_object) (name : string) : bool :=
  match own masonryOptions !! name with
  | Some v => truthy (Some v)
  | None =>
      match prototype masonryOptions with
      | Some j => property_is_true j name
      | None => false
      end
  end.

(** The options as [createLayout] and the logging read them. *)
Definition options_read (masonryOptions : options_object) : options :=
  {| sortByHeight := read_option masonryOptions "sortByHeight";
     horizontalOrder := read_option masonryOptions "horizontalOrder";
     debug := read_option masonryOptions "debug" |}.

(** The values of the attributes that set the option [n], in order. *)
Definition values_for (n : string) (attributes : list (string * string)) : list string :=
  omap (fun attr : string * string =>
          if startsWith attr.1 "data-masonry-" && String.eqb (optionName attr.1) n
          then Some attr.2 else None)
       attributes.

(** The objects and arrays among the parsed values. *)
Definition objects_of (values : list string) : list Json :=
  omap (fun value => match coerce value with
                     | value_json j => Some j
                     | _ => None
                     end)
       values.
End ParseMasonryOptions.

(** The attribute name the markup derives from an option name: a hyphen
    and the small letter for every capital letter. *)
Definition is_upper (c : Ascii.ascii) : bool :=
  (65 <=? Ascii.nat_of_ascii c)%nat && (Ascii.nat_of_ascii c <=? 90)%nat.

Fixpoint kebab_case (s : string) : string :=
  match s with
  | EmptyString => EmptyString
  | String c rest =>
      if is_upper c
      then String "-"%char (String (Ascii.ascii_of_nat (Ascii.nat_of_ascii c + 32)) (kebab_case rest))
      else String c (kebab_case rest)
  end.

Fixpoint hyphenless (s : string) : Prop :=
  match s with
  | EmptyString => True
  | String c rest => c <> "-"%char /\ hyphenless rest
  end.

(** For examples: the attribute value [{ sortByHeight: true }] in JSON,
    with the key between quotation marks, and a platform that parses this
    text alone, to the list of the keys whose entry is true. *)
Definition quotation_mark : string := String (Ascii.ascii_of_nat 34) EmptyString.

Definition example_object_text : string :=
  "{" ++ quotation_mark ++ "sortByHeight" ++ quotation_mark ++ ":true}".

Definition example_JSON_parse (text : string) : option (list string) :=
  if String.eqb text example_object_text then Some ["sortByHeight"] else None.

Definition example_property_is_true (j : list string) (name : string) : bool :=
  existsb (String.eqb name) j.

Local Close Scope string_scope.

(** A layout object for examples: the three items of [example_page] in two
    columns, as width 250 lays them out. *)
Definition example_object : @MasonryLayout nat :=
  {| container := [[1; 3]; [2]]%nat; originalItems := [1; 2; 3]%nat;
     breakpointCols := JObject T_100_300; columnCount := Some 2;
     masonryOptions := sequential_options |}.

(** * Properties *)

(** ** The column count *)

Lemma elem_of_sorted_keys T t :
  t ∈ sort_ascending (threshold_keys T) <-> is_Some (Table.thresholds T !! t).
Proof.
  unfold sort_ascending, threshold_keys.
  rewrite merge_sort_Permutation, list_elem_of_fmap. split.
  - intros [[k v] [-> Hkv]]. apply elem_of_map_to_list in Hkv. simpl. eauto.
  - intros [v Hv]. exists (t, v). split; [done|]. by apply elem_of_map_to_list.
Qed.

Lemma sorted_keys_sorted T : StronglySorted Z.le (sort_ascending (threshold_keys T)).
Proof. unfold sort_ascending. apply StronglySorted_merge_sort; apply _. Qed.

Lemma match_breakpoint_hit dbg w T l d t :
  StronglySorted Z.le l -> t ∈ l -> w <= t ->
  (forall t', t' ∈ l -> w <= t' -> t <= t') ->
  match_breakpoint dbg w T l d
  = (Ok (Table.thresholds T !! t),
     if dbg then [log_matched t (Table.thresholds T !! t)] else []).
Proof.
  induction 1 as [|h l Hs IH Hh]; intros Hin Hw Hmin.
  - by apply elem_of_nil in Hin.
  - simpl. destruct (Z.leb_spec w h) as [Hwh|Hwh].
    + assert (t = h) as ->.
      { apply elem_of_cons in Hin as [->|Hin]; [done|].
        rewrite Forall_forall in Hh. specialize (Hh t Hin).
        specialize (Hmin h (list_elem_of_here _ _) Hwh). lia. }
      by destruct dbg.
    + apply elem_of_cons in Hin as [->|Hin]; [lia|].
      apply IH; [done..|]. intros t' Ht'. apply Hmin. by apply list_elem_of_further.
Qed.

Lemma match_breakpoint_miss dbg w T l d :
  (forall t, t ∈ l -> t < w) -> match_breakpoint dbg w T l d = (Ok d, []).
Proof.
  induction l as [|h l IH]; intros Hall; [done|]. simpl.
  destruct (Z.leb_spec w h) as [Hwh|Hwh].
  - specialize (Hall h (list_elem_of_here _ _)). lia.
  - apply IH. intros t Ht. apply Hall. by apply list_elem_of_further.
Qed.

Lemma match_breakpoint_returns dbg w T l d :
  exists v out,
    match_breakpoint dbg w T l d = (Ok v, out)
    /\ forall attr, error_invalid_format attr ∉ out.
Proof.
  induction l as [|h l IH]; simpl.
  - exists d, []. split; [done|]. intros attr. apply not_elem_of_nil.
  - destruct (w <=? h); [|done]. destruct dbg; simpl.
    + eexists _, _. split; [done|]. intros attr Hin.
      apply elem_of_cons in Hin as [Heq|Hin]; [discriminate|by apply elem_of_nil in Hin].
    + eexists _, _. split; [done|]. intros attr. apply not_elem_of_nil.
Qed.

(** C1. On a table [T] and a width [w], [calculateColumnCount] returns the
    entry of the smallest threshold [t] with [w <= t] (the comparison is
    inclusive, and the scan stops there: with [debug] the console shows that
    one match and no other); when [w] exceeds every threshold it returns
    [T.default] and writes nothing. For the thresholds 100 and 300 with
    columns 1 and 2 and the default 3, the widths 50, 100, 250 and 400
    resolve to 1, 1, 2 and 3. *)
Theorem calculateColumnCount_smallest_threshold (opts : options) (w : Z) (T : Table.t) :
  (forall t, first_match w T t ->
     calculateColumnCount opts (JObject T) w
     = (Ok (Table.thresholds T !! t), matched_entry opts t (Table.thresholds T !! t))
     /\ resolve w T = Ok (Table.thresholds T !! t))
  /\ ((forall t, is_Some (Table.thresholds T !! t) -> t < w) ->
     calculateColumnCount opts (JObject T) w = (Ok (Table.default T), [])
     /\ resolve w T = Ok (Table.default T))
  /\ resolve 50 T_100_300 = Ok (Some 1)
  /\ resolve 100 T_100_300 = Ok (Some 1)
  /\ resolve 250 T_100_300 = Ok (Some 2)
  /\ resolve 400 T_100_300 = Ok (Some 3).
Proof.
  split; [|split].
  - intros t (Hin & Hw & Hmin).
    assert (forall dbg,
      match_breakpoint dbg w T (sort_ascending (threshold_keys T)) (Table.default T)
      = (Ok (Table.thresholds T !! t),
         if dbg then [log_matched t (Table.thresholds T !! t)] else [])) as H.
    { intros dbg. apply match_breakpoint_hit;
        [apply sorted_keys_sorted|by apply elem_of_sorted_keys|done|].
      intros t' Ht'. apply Hmin. by apply elem_of_sorted_keys. }
    split; [apply H|]. unfold resolve, calculateColumnCount. cbn. by rewrite H.
  - intros Hall.
    assert (forall dbg,
      match_breakpoint dbg w T (sort_ascending (threshold_keys T)) (Table.default T)
      = (Ok (Table.default T), [])) as H.
    { intros dbg. apply match_breakpoint_miss. intros t Ht. apply Hall.
      by apply elem_of_sorted_keys. }
    split; [apply H|]. unfold resolve, calculateColumnCount. cbn. by rewrite H.
  - repeat split; vm_compute; reflexivity.
Qed.

Lemma calculateColumnCount_smallest_threshold_witness :
  first_match 250 T_100_300 300 /\ resolve 250 T_100_300 = Ok (Some 2).
Proof.
  assert (first_match 250 T_100_300 300) as H.
  { split; [by eexists|]. split; [lia|].
    intros t' [v Hv] Hw.
    change (({[100 := 1; 300 := 2]} : gmap Z Z) !! t' = Some v) in Hv.
    destruct (decide (t' = 100)) as [->|?]; [lia|].
    rewrite lookup_insert_ne in Hv by done.
    destruct (decide (t' = 300)) as [->|?]; [lia|].
    by rewrite lookup_singleton_ne in Hv. }
  split; [exact H|].
  exact (proj2 (proj1 (calculateColumnCount_smallest_threshold
                         sequential_options 250 T_100_300) 300 H)).
Defined.

(** ** The distribution of the items *)

Local Open Scope nat_scope.

Lemma first_least_unique measure n j j' :
  first_least measure n j -> first_least measure n j' -> j = j'.
Proof.
  intros (Hj & Hmin & Hfirst) (Hj' & Hmin' & Hfirst').
  destruct (Nat.lt_trichotomy j j') as [Hlt|[->|Hlt]]; [|done|].
  - specialize (Hfirst' _ Hlt). specialize (Hmin _ Hj'). lia.
  - specialize (Hfirst _ Hlt). specialize (Hmin' _ Hj). lia.
Qed.

(** The strict comparison of the reducer keeps the first of the least. *)
Lemma reduce_least_first_least measure n :
  0 < n -> exists j, reduce_least measure n = Some j /\ first_least measure n j.
Proof.
  destruct n as [|n]; [lia|]. intros _. unfold reduce_least.
  eexists; split; [done|].
  induction n as [|n IH].
  - simpl. rewrite Z.ltb_irrefl. repeat split; intros; try lia.
    by replace k with 0 by lia.
  - rewrite (seq_S (S n)), foldl_app.
    set (j := foldl _ 0 (seq 0 (S n))) in *. simpl.
    destruct IH as (Hj & Hmin & Hfirst).
    destruct (Z.ltb_spec (measure (S n)) (measure j)) as [Hlt|Hge].
    + repeat split; [lia| |].
      * intros k Hk. destruct (decide (k = S n)) as [->|?]; [lia|].
        specialize (Hmin k). lia.
      * intros k Hk. specialize (Hmin k). lia.
    + repeat split; [lia| |done].
      intros k Hk. destruct (decide (k = S n)) as [->|?]; [lia|].
      apply Hmin. lia.
Qed.

Lemma succ_div_mod c k :
  0 < c ->
  (S k mod c = S (k mod c) /\ S k / c = k / c /\ S (k mod c) < c)
  \/ (S k mod c = 0 /\ S k / c = S (k / c) /\ S (k mod c) = c).
Proof.
  intros Hc.
  pose proof (Nat.div_mod_eq k c) as Hk.
  pose proof (Nat.mod_upper_bound k c ltac:(lia)) as Hr.
  destruct (decide (S (k mod c) < c)) as [Hlt|Hge].
  - left. split; [|split; [|done]].
    + symmetry. apply (Nat.mod_unique _ _ (k / c)); lia.
    + symmetry. apply (Nat.div_unique _ _ _ (S (k mod c))); lia.
  - right. split; [|split; [|lia]].
    + symmetry. apply (Nat.mod_unique _ _ (S (k / c))); lia.
    + symmetry. apply (Nat.div_unique _ _ _ 0); lia.
Qed.

Section LayoutFacts.
Context {Item : Type}.
Implicit Types (cols : list (list Item)) (items : list Item).

Lemma prepare_columns_empty (columnCount : value) cols :
  prepare_columns columnCount cols = replicate (ToLength columnCount) ([] : list Item).
Proof.
  unfold prepare_columns. case_decide as H; [|done]. subst columnCount. simpl.
  rewrite Nat2Z.id. induction cols as [|col cols IH]; [done|]. simpl. by f_equal.
Qed.

Lemma ToLength_of_nat c : ToLength (Some (Z.of_nat c)) = c.
Proof. simpl. apply Nat2Z.id. Qed.

Lemma concat_replicate_nil n : concat (replicate n ([] : list Item)) = [].
Proof. induction n; [done|]. by simpl. Qed.

Lemma forEach_snoc callback items item index cols :
  forEach callback (items ++ [item]) index cols
  = match forEach callback items index cols with
    | Ok cols' => callback item (index + length items) cols'
    | Throw e => Throw e
    end.
Proof.
  revert index cols. induction items as [|x items IH]; intros index cols; simpl.
  - rewrite Nat.add_0_r. by destruct (callback item index cols).
  - destruct (callback x index cols) as [cols'|e]; [|done].
    rewrite IH. by replace (S index + length items) with (index + S (length items)) by lia.
Qed.

Lemma concat_append_to j item cols :
  j < length cols -> concat (append_to j item cols) ≡ₚ concat cols ++ [item].
Proof.
  revert j. induction cols as [|col cols IH]; intros j Hj; simpl in *; [lia|].
  destruct j as [|j]; simpl.
  - rewrite <- !(assoc_L (++)). f_equiv. apply Permutation_app_comm.
  - rewrite IH by lia. by rewrite (assoc_L (++)).
Qed.

(** What [appendChild] changes: column [j] ends with the item, after the
    children it had, and no other column differs. *)
Lemma append_to_lookup j item cols :
  j < length cols ->
  exists column,
    cols !! j = Some column
    /\ length (append_to j item cols) = length cols
    /\ append_to j item cols !! j = Some (column ++ [item])
    /\ forall j', j' <> j -> append_to j item cols !! j' = cols !! j'.
Proof.
  intros Hj. destruct (lookup_lt_is_Some_2 cols j Hj) as [column Hcolumn].
  exists column. unfold append_to. split; [done|]. split; [apply length_alter|]. split.
  - by rewrite list_lookup_alter_eq, Hcolumn.
  - intros j' Hne. by apply list_lookup_alter_ne.
Qed.

(** Whatever column each step chooses, the loop keeps the number of columns,
    adds the items to the columns' contents, and extends every column by a
    subsequence of the items. *)
Lemma forEach_appends n callback items index cols :
  appends n callback -> length cols = n ->
  exists cols', forEach callback items index cols = Ok cols'
    /\ length cols' = n
    /\ concat cols' ≡ₚ concat cols ++ items
    /\ forall j old, cols !! j = Some old ->
         exists added, cols' !! j = Some (old ++ added) /\ sublist added items.
Proof.
  intros Hcb. revert index cols.
  induction items as [|item items IH]; intros index cols Hlen; simpl.
  - exists cols. rewrite app_nil_r. repeat split; [done..|].
    intros j old Hj. exists []. by rewrite app_nil_r.
  - destruct (Hcb item index cols Hlen) as (k & Hk & ->).
    destruct (IH (S index) (append_to k item cols)) as (cols' & -> & Hlen' & Hperm & Hcols).
    { unfold append_to. by rewrite length_alter. }
    exists cols'. repeat split; [done| |].
    + rewrite Hperm, concat_append_to by lia. by rewrite <- (assoc_L (++)).
    + intros j old Hj. destruct (decide (k = j)) as [->|Hne].
      * destruct (Hcols j (old ++ [item])) as (added & Hadded & Hsub).
        { unfold append_to. by rewrite list_lookup_alter_eq, Hj. }
        exists (item :: added). rewrite Hadded, <- (assoc_L (++)). split; [done|].
        by apply sublist_skip.
      * destruct (Hcols j old) as (added & Hadded & Hsub).
        { unfold append_to. by rewrite list_lookup_alter_ne. }
        exists added. split; [done|]. by apply sublist_cons.
Qed.

Lemma NoDup_concat_lookup cols j1 j2 col1 col2 x :
  NoDup (concat cols) -> cols !! j1 = Some col1 -> cols !! j2 = Some col2 ->
  x ∈ col1 -> x ∈ col2 -> j1 = j2.
Proof.
  revert j1 j2. induction cols as [|col cols IH]; intros j1 j2 Hnd H1 H2 Hx1 Hx2; [done|].
  simpl in Hnd. apply NoDup_app in Hnd as (_ & Hdisj & Hnd).
  assert (forall j c', cols !! j = Some c' -> x ∈ c' -> x ∈ concat cols) as Hin.
  { intros j c' Hj Hc'. apply list_elem_of_In, in_concat. exists c'.
    split; [|by apply list_elem_of_In]. apply list_elem_of_In.
    by apply list_elem_of_lookup_2 in Hj. }
  destruct j1 as [|j1], j2 as [|j2]; simpl in *; simplify_eq; [done| | |].
  - exfalso. eapply Hdisj; eauto.
  - exfalso. eapply Hdisj; eauto.
  - f_equal. eauto.
Qed.

(** *** Dealing in turn *)

Lemma dealt_empty c : 0 < c -> dealt (replicate c ([] : list Item)) c 0.
Proof.
  intros Hc. split; [by rewrite length_replicate|].
  intros j col [-> _]%lookup_replicate.
  rewrite Nat.Div0.div_0_l, Nat.Div0.mod_0_l. by case_decide; [lia|].
Qed.

Lemma dealt_append c k item cols :
  0 < c -> dealt cols c k -> dealt (append_to (k mod c) item cols) c (S k).
Proof.
  intros Hc [Hlen Hcols]. split; [unfold append_to; by rewrite length_alter|].
  intros j col Hj. unfold append_to in Hj.
  destruct (decide (k mod c = j)) as [<-|Hne].
  - rewrite list_lookup_alter_eq in Hj.
    destruct (cols !! (k mod c)) as [old|] eqn:Hold; [|done].
    simpl in Hj. injection Hj as <-. rewrite length_app, (Hcols _ _ Hold). simpl.
    destruct (succ_div_mod c k Hc) as [(-> & -> & ?)|(-> & -> & ?)];
      repeat case_decide; lia.
  - rewrite list_lookup_alter_ne in Hj by done. rewrite (Hcols _ _ Hj).
    apply lookup_lt_Some in Hj.
    destruct (succ_div_mod c k Hc) as [(-> & -> & ?)|(-> & -> & ?)];
      repeat case_decide; lia.
Qed.

Lemma dealt_first_least c k cols :
  0 < c -> dealt cols c k -> first_least (children_length cols) c (k mod c).
Proof.
  intros Hc [Hlen Hcols].
  pose proof (Nat.mod_upper_bound k c ltac:(lia)) as Hr.
  assert (forall j, j < c ->
    children_length cols j
    = Z.of_nat (k / c + (if decide (j < k mod c) then 1 else 0))) as Hm.
  { intros j Hj. unfold children_length.
    destruct (lookup_lt_is_Some_2 cols j ltac:(lia)) as [col Hcol].
    rewrite Hcol. simpl. by rewrite (Hcols _ _ Hcol). }
  split; [done|]. split.
  - intros j Hj. rewrite !Hm by lia. repeat case_decide; lia.
  - intros j Hj. rewrite !Hm by lia. repeat case_decide; lia.
Qed.

Lemma place_by_index_turn c k item cols :
  0 < c -> length cols = c ->
  place_by_index (Some (Z.of_nat c)) item k cols = Ok (append_to (k mod c) item cols).
Proof.
  intros Hc Hlen. unfold place_by_index, js_rem.
  destruct (Z.eqb_spec (Z.of_nat c) 0) as [?|_]; [lia|].
  rewrite Z.rem_mod_nonneg by lia. rewrite <- Nat2Z.inj_mod. simpl.
  pose proof (Nat.mod_upper_bound k c ltac:(lia)) as Hr.
  destruct (Z.leb_spec 0 (Z.of_nat (k mod c))); [|lia].
  destruct (Z.ltb_spec (Z.of_nat (k mod c)) (Z.of_nat (length cols))); [|lia].
  simpl. by rewrite Nat2Z.id.
Qed.

Lemma place_by_count_turn c k item index cols :
  0 < c -> dealt cols c k ->
  place_by_count item index cols = Ok (append_to (k mod c) item cols).
Proof.
  intros Hc Hd. unfold place_by_count.
  destruct (reduce_least_first_least (children_length cols) (length cols)) as (j & -> & Hj).
  { destruct Hd as [-> _]. done. }
  pose proof (dealt_first_least _ _ _ Hc Hd) as Hk. destruct Hd as [Hlen _].
  rewrite Hlen in Hj. by rewrite (first_least_unique _ _ _ _ Hj Hk).
Qed.

(** From columns dealt up to item [k], the loop by index and the loop by
    count take the same steps: item [k + i] becomes entry [(k + i) / c] of
    column [(k + i) mod c]. *)
Lemma forEach_in_turn c items k cols :
  0 < c -> dealt cols c k ->
  exists cols',
    forEach (place_by_index (Some (Z.of_nat c))) items k cols = Ok cols'
    /\ forEach place_by_count items k cols = Ok cols'
    /\ dealt cols' c (k + length items)
    /\ (forall j old, cols !! j = Some old -> exists added, cols' !! j = Some (old ++ added))
    /\ (forall i item, items !! i = Some item ->
          exists col, cols' !! ((k + i) mod c) = Some col /\ col !! ((k + i) / c) = Some item).
Proof.
  intros Hc. revert k cols.
  induction items as [|x items IH]; intros k cols Hd; simpl.
  - exists cols. rewrite Nat.add_0_r.
    split; [done|]. split; [done|]. split; [done|]. split; [|done].
    intros j old ->. exists []. by rewrite app_nil_r.
  - rewrite place_by_index_turn by (done || apply Hd).
    rewrite (place_by_count_turn c k) by done.
    destruct (IH (S k) _ (dealt_append c k x cols Hc Hd))
      as (cols' & -> & -> & Hd' & Hold & Hpos).
    exists cols'. split; [done|]. split; [done|]. split; [|split].
    + by replace (k + S (length items)) with (S k + length items) by lia.
    + intros j old Hj. unfold append_to in Hold.
      destruct (decide (k mod c = j)) as [<-|Hne].
      * destruct (Hold (k mod c) (old ++ [x])) as (added & ->).
        { by rewrite list_lookup_alter_eq, Hj. }
        exists (x :: added). by rewrite <- (assoc_L (++)).
      * apply Hold. by rewrite list_lookup_alter_ne.
    + intros [|i] item Hi; simpl in Hi.
      * injection Hi as ->. rewrite Nat.add_0_r.
        pose proof (Nat.mod_upper_bound k c ltac:(lia)) as Hr.
        destruct Hd as [Hlen Hcols].
        destruct (lookup_lt_is_Some_2 cols (k mod c) ltac:(lia)) as [old Hcol].
        destruct (Hold (k mod c) (old ++ [item])) as (added & ->).
        { unfold append_to. by rewrite list_lookup_alter_eq, Hcol. }
        eexists; split; [done|].
        rewrite <- (assoc_L (++)). rewrite lookup_app_r; rewrite (Hcols _ _ Hcol).
        -- case_decide; [lia|]. by rewrite Nat.add_0_r, Nat.sub_diag.
        -- case_decide; lia.
      * replace (k + S i) with (S k + i) by lia. by apply Hpos.
Qed.
End LayoutFacts.

(** *** Sorting by original index *)

Lemma with_index_sorted {Item} (items : list Item) (k : nat) :
  Sorted by_index (imap (fun i x => (k + i, x)) items).
Proof.
  revert k. induction items as [|x items IH]; intros k; [constructor|].
  rewrite imap_cons.
  rewrite (imap_ext _ (fun i y => (S k + i, y))) by (intros; simpl; f_equal; lia).
  constructor; [apply IH|].
  destruct items; constructor. unfold by_index. simpl. lia.
Qed.

Lemma with_index_lookup {Item} (items : list Item) (i : nat) (p : nat * Item) :
  with_index items !! i = Some p <-> p.1 = i /\ items !! i = Some p.2.
Proof.
  unfold with_index. rewrite list_lookup_imap. destruct p as [a x]. simpl.
  destruct (items !! i) as [y|]; simpl; split.
  - by intros [= <- <-].
  - by intros [<- [= <-]].
  - done.
  - by intros [_ ?].
Qed.

Lemma with_index_snd {Item} (items : list Item) : (with_index items).*2 = items.
Proof.
  unfold with_index. rewrite fmap_imap. apply list_eq. intros i.
  rewrite list_lookup_imap. by destruct (items !! i).
Qed.

(** Sorting any arrangement of the indexed items gives them back in their
    original order. *)
Lemma resort_with_index {Item} (items : list Item) (l : list (nat * Item)) :
  l ≡ₚ with_index items -> resort l = with_index items.
Proof.
  intros Hperm.
  assert (Total (@by_index Item)) by (intros p q; unfold by_index; lia).
  assert (Transitive (@by_index Item)) by (intros p q r; unfold by_index; lia).
  apply (Sorted_unique_strong by_index).
  - intros p q Hp Hq Hpq Hqp. unfold resort in Hp.
    rewrite merge_sort_Permutation, Hperm in Hp.
    apply list_elem_of_lookup in Hp as [i [Hi Hpi]%with_index_lookup].
    apply list_elem_of_lookup in Hq as [j [Hj Hqj]%with_index_lookup].
    unfold by_index in *. destruct p, q; simpl in *.
    assert (i = j) as -> by lia. congruence.
  - by apply (Sorted_merge_sort by_index).
  - apply (with_index_sorted items 0).
  - unfold resort. by rewrite merge_sort_Permutation.
Qed.

(** The loop by index does not look at the items. *)
Lemma forEach_by_index_fmap {A B : Type} (f : A -> B) columnCount (items : list A) k
    (cols cols' : list (list A)) :
  forEach (place_by_index columnCount) items k cols = Ok cols' ->
  forEach (place_by_index columnCount) (f <$> items) k
    ((fun col : list A => f <$> col) <$> cols)
  = Ok ((fun col : list A => f <$> col) <$> cols').
Proof.
  revert k cols. induction items as [|x items IH]; intros k cols; simpl.
  - by intros [= ->].
  - unfold place_by_index at 1 3. rewrite length_fmap.
    destruct (array_index (length cols) (js_rem (Z.of_nat k) columnCount)) as [j|]; [|done].
    simpl. intros Hrun. apply IH in Hrun. rewrite <- Hrun. f_equal.
    unfold append_to. symmetry. apply list_fmap_alter, Forall_forall.
    intros col _. by rewrite fmap_app.
Qed.

(** *** The strategies *)

Section Strategies.
Context {Item : Type}.
Variable offsetHeight : list (list Item) -> nat -> Z.
Implicit Types (cols existing : list (list Item)) (items : list Item).

Lemma place_by_height_appends n : 0 < n -> appends n (place_by_height offsetHeight).
Proof.
  intros Hn item index cols Hlen. unfold place_by_height. rewrite Hlen.
  destruct (reduce_least_first_least (offsetHeight cols) n Hn) as (j & -> & Hj & _).
  by exists j.
Qed.

Lemma place_by_count_appends n : 0 < n -> appends n (@place_by_count Item).
Proof.
  intros Hn item index cols Hlen. unfold place_by_count. rewrite Hlen.
  destruct (reduce_least_first_least (children_length cols) n Hn) as (j & -> & Hj & _).
  by exists j.
Qed.

Lemma place_by_index_appends c :
  0 < c -> appends c (@place_by_index Item (Some (Z.of_nat c))).
Proof.
  intros Hc item index cols Hlen. exists (index mod c).
  split; [apply Nat.mod_upper_bound; lia|]. by apply place_by_index_turn.
Qed.

Lemma callback_of_appends opts c :
  0 < c -> appends c (callback_of offsetHeight opts (Some (Z.of_nat c))).
Proof.
  intros Hc. unfold callback_of.
  destruct (strategy_of opts);
    auto using place_by_height_appends, place_by_count_appends, place_by_index_appends.
Qed.

(** [createLayout] is the loop of its strategy over empty columns, whatever
    columns the container had. *)
Lemma createLayout_forEach opts columnCount items existing :
  createLayout offsetHeight opts columnCount items existing
  = forEach (callback_of offsetHeight opts columnCount) items 0
      (replicate (ToLength columnCount) []).
Proof.
  unfold createLayout, callback_of, strategy_of. rewrite prepare_columns_empty.
  by destruct (sortByHeight opts), (horizontalOrder opts).
Qed.

(** The layout of the first [k + 1] items is the layout of the first [k]
    with one more step of the callback. *)
Lemma createLayout_prefix opts c items existing k item :
  0 < c -> items !! k = Some item ->
  exists before,
    createLayout offsetHeight opts (Some (Z.of_nat c)) (take k items) existing = Ok before
    /\ length before = c
    /\ createLayout offsetHeight opts (Some (Z.of_nat c)) (take (S k) items) existing
       = callback_of offsetHeight opts (Some (Z.of_nat c)) item k before.
Proof.
  intros Hc Hk. rewrite !createLayout_forEach, ToLength_of_nat.
  destruct (forEach_appends c _ (take k items) 0 (replicate c [])
              (callback_of_appends opts c Hc)) as (before & Hbefore & Hlen & _).
  { by rewrite length_replicate. }
  exists before. split; [done|]. split; [done|].
  rewrite (take_S_r _ _ _ Hk), forEach_snoc, Hbefore. simpl.
  rewrite length_take_le; [done|]. apply lookup_lt_Some in Hk. lia.
Qed.

(** C2. For every item list, every column count [c >= 1] and every strategy
    (and every height provider and previous state of the container),
    [createLayout] returns [c] columns whose concatenation in column order
    is a permutation of the items; every column is a subsequence of the
    item list, so the original relative order is kept inside a column; and
    when the items are pairwise distinct, each is in exactly one column. *)
Theorem createLayout_partitions_items (opts : options) (c : nat) items existing :
  0 < c ->
  exists cols,
    createLayout offsetHeight opts (Some (Z.of_nat c)) items existing = Ok cols
    /\ length cols = c
    /\ concat cols ≡ₚ items
    /\ (forall j col, cols !! j = Some col -> sublist col items)
    /\ (NoDup items -> forall item, item ∈ items ->
          exists j col, cols !! j = Some col /\ item ∈ col
            /\ forall j' col', cols !! j' = Some col' -> item ∈ col' -> j' = j).
Proof.
  intros Hc. rewrite createLayout_forEach, ToLength_of_nat.
  destruct (forEach_appends c _ items 0 (replicate c [])
              (callback_of_appends opts c Hc))
    as (cols & -> & Hlen & Hperm & Hsub).
  { by rewrite length_replicate. }
  rewrite concat_replicate_nil in Hperm. simpl in Hperm.
  exists cols. split; [done|]. split; [done|]. split; [done|]. split.
  - intros j col Hj.
    destruct (Hsub j []) as (added & Hadded & Hs).
    { apply lookup_replicate_2. apply lookup_lt_Some in Hj. lia. }
    simpl in Hadded. by simplify_eq.
  - intros Hnd item Hin. rewrite <- Hperm in Hin, Hnd.
    apply list_elem_of_In, in_concat in Hin as (col & Hcol & Hitem).
    apply list_elem_of_In, list_elem_of_lookup in Hcol as [j Hj].
    apply list_elem_of_In in Hitem.
    exists j, col. split; [done|]. split; [done|].
    intros j' col' Hj' Hitem'. by apply (NoDup_concat_lookup cols j' j col' col item).
Qed.

(** The layout of no item is the columns, all empty. *)
Lemma createLayout_starts_empty opts (c : nat) existing :
  createLayout offsetHeight opts (Some (Z.of_nat c)) [] existing = Ok (replicate c []).
Proof. by rewrite createLayout_forEach, ToLength_of_nat. Qed.

(** C5. Under the shortest-height strategy, for every column count
    [c >= 1] and every height provider, the layout starts from [c] empty
    columns and each item, in original order, goes to the column whose
    height is least among the [c] columns as the items before it left them,
    the first such column when several tie: the layout [after] of the first
    [k + 1] items is the layout [before] of the first [k] with item [k] as
    the new last entry of that column [j], every other column being as it
    was. *)
Theorem shortest_height_takes_least_column (opts : options) (c : nat) items existing :
  0 < c -> strategy_of opts = shortest_height ->
  createLayout offsetHeight opts (Some (Z.of_nat c)) [] existing = Ok (replicate c [])
  /\ forall k item, items !! k = Some item ->
       exists before j column after,
         createLayout offsetHeight opts (Some (Z.of_nat c)) (take k items) existing
         = Ok before
         /\ length before = c
         /\ first_least (offsetHeight before) c j
         /\ before !! j = Some column
         /\ createLayout offsetHeight opts (Some (Z.of_nat c)) (take (S k) items) existing
            = Ok after
         /\ length after = c
         /\ after !! j = Some (column ++ [item])
         /\ forall j', j' <> j -> after !! j' = before !! j'.
Proof.
  intros Hc Hs. split; [apply createLayout_starts_empty|]. intros k item Hk.
  destruct (createLayout_prefix opts c items existing k item Hc Hk)
    as (before & Hbefore & Hlen & Hnext).
  unfold callback_of in Hnext. rewrite Hs in Hnext. unfold place_by_height in Hnext.
  rewrite Hlen in Hnext.
  destruct (reduce_least_first_least (offsetHeight before) c Hc) as (j & Hj & Hleast).
  rewrite Hj in Hnext. simpl in Hnext.
  destruct (append_to_lookup j item before) as (column & Hcolumn & Hlen' & Hat & Hother).
  { rewrite Hlen. apply Hleast. }
  exists before, j, column, (append_to j item before).
  rewrite Hlen' in *. by repeat (split; [done|]).
Qed.

(** C4. Under the fewest-items strategy, for every column count [c >= 1],
    the layout starts from [c] empty columns and each item, in original
    order, goes to the column that holds the fewest items as the items
    before it left the columns, the first such column when several tie:
    in the layout [before] of the first [k] items no column holds fewer
    items than column [j] and every column before it holds more, and the
    layout [after] of the first [k + 1] items is [before] with item [k] as
    the new last entry of column [j], every other column being as it was.
    The finished layout holds the items, and no column of it holds more
    than one item more than any other. *)
Theorem fewest_items_takes_least_column_and_balances (opts : options) (c : nat)
    items existing :
  0 < c -> strategy_of opts = fewest_items ->
  createLayout offsetHeight opts (Some (Z.of_nat c)) [] existing = Ok (replicate c [])
  /\ (forall k item, items !! k = Some item ->
        exists before j column after,
          createLayout offsetHeight opts (Some (Z.of_nat c)) (take k items) existing
          = Ok before
          /\ length before = c
          /\ before !! j = Some column
          /\ (forall i col, before !! i = Some col -> length column <= length col)
          /\ (forall i col, i < j -> before !! i = Some col -> length column < length col)
          /\ createLayout offsetHeight opts (Some (Z.of_nat c)) (take (S k) items) existing
             = Ok after
          /\ length after = c
          /\ after !! j = Some (column ++ [item])
          /\ forall j', j' <> j -> after !! j' = before !! j')
  /\ exists cols,
       createLayout offsetHeight opts (Some (Z.of_nat c)) items existing = Ok cols
       /\ length cols = c
       /\ concat cols ≡ₚ items
       /\ forall i j col_i col_j, cols !! i = Some col_i -> cols !! j = Some col_j ->
            length col_i <= length col_j + 1.
Proof.
  intros Hc Hs. split; [apply createLayout_starts_empty|]. split.
  - intros k item Hk.
    destruct (createLayout_prefix opts c items existing k item Hc Hk)
      as (before & Hbefore & Hlen & Hnext).
    unfold callback_of in Hnext. rewrite Hs in Hnext. unfold place_by_count in Hnext.
    rewrite Hlen in Hnext.
    destruct (reduce_least_first_least (children_length before) c Hc)
      as (j & Hj & Hjc & Hle & Hlt).
    rewrite Hj in Hnext. simpl in Hnext.
    destruct (append_to_lookup j item before) as (column & Hcolumn & Hlen' & Hat & Hother).
    { by rewrite Hlen. }
    exists before, j, column, (append_to j item before).
    split; [done|]. split; [done|]. split; [done|]. split; [|split].
    + intros i col Hi. specialize (Hle i). unfold children_length in Hle.
      rewrite Hcolumn, Hi in Hle. simpl in Hle.
      apply lookup_lt_Some in Hi. lia.
    + intros i col Hij Hi. specialize (Hlt i Hij). unfold children_length in Hlt.
      rewrite Hcolumn, Hi in Hlt. simpl in Hlt. lia.
    + rewrite Hlen' in *. by repeat (split; [done|]).
  - rewrite createLayout_forEach, ToLength_of_nat. unfold callback_of. rewrite Hs.
    destruct (forEach_in_turn c items 0 _ Hc (dealt_empty c Hc))
      as (cols & _ & Hrun & [Hlen Hcols] & _).
    destruct (forEach_appends c _ items 0 (replicate c []) (place_by_count_appends c Hc))
      as (cols' & Hrun' & _ & Hperm & _).
    { by rewrite length_replicate. }
    rewrite Hrun in Hrun'. injection Hrun' as <-.
    rewrite concat_replicate_nil in Hperm. simpl in Hperm.
    exists cols. split; [done|]. split; [done|]. split; [done|].
    intros i j col_i col_j Hi Hj. rewrite (Hcols _ _ Hi), (Hcols _ _ Hj).
    repeat case_decide; lia.
Qed.

(** C10. For every item list and every column count [c >= 1], the
    fewest-items strategy and the sequential strategy return the same
    columns: the strict comparison sends every tie to the lowest column, so
    the item at original index [i] is entry [i / c] of column [i mod c]
    under both. *)
Theorem fewest_items_is_sequential (opts_f opts_s : options) (c : nat)
    items existing existing' :
  0 < c -> strategy_of opts_f = fewest_items -> strategy_of opts_s = sequential ->
  exists cols,
    createLayout offsetHeight opts_f (Some (Z.of_nat c)) items existing = Ok cols
    /\ createLayout offsetHeight opts_s (Some (Z.of_nat c)) items existing' = Ok cols
    /\ forall i item, items !! i = Some item ->
         exists col, cols !! (i mod c) = Some col /\ col !! (i / c) = Some item.
Proof.
  intros Hc Hf Hs. rewrite !createLayout_forEach, ToLength_of_nat.
  unfold callback_of. rewrite Hf, Hs.
  destruct (forEach_in_turn c items 0 _ Hc (dealt_empty c Hc))
    as (cols & -> & -> & _ & _ & Hpos).
  by exists cols.
Qed.
End Strategies.

(** C3. Under the sequential strategy, for every item list [L] and every
    column count [c >= 1], the item at original index [i] is assigned to
    column [i mod c] (as its entry [i / c]); and when the items carry their
    original index, the columns are the same with the indices attached, and
    concatenating columns [0..c-1] and sorting by that index gives [L]
    back. *)
Theorem sequential_deals_in_turn {Item : Type}
    (offsetHeight : list (list Item) -> nat -> Z)
    (offsetHeight' : list (list (nat * Item)) -> nat -> Z)
    (opts : options) (c : nat) (L : list Item)
    (existing : list (list Item)) (existing' : list (list (nat * Item))) :
  0 < c -> strategy_of opts = sequential ->
  exists cols indexed,
    createLayout offsetHeight opts (Some (Z.of_nat c)) L existing = Ok cols
    /\ length cols = c
    /\ (forall i item, L !! i = Some item ->
          exists col, cols !! (i mod c) = Some col /\ col !! (i / c) = Some item)
    /\ createLayout offsetHeight' opts (Some (Z.of_nat c)) (with_index L) existing'
       = Ok indexed
    /\ (fun col : list (nat * Item) => col.*2) <$> indexed = cols
    /\ (resort (concat indexed)).*2 = L.
Proof.
  intros Hc Hs.
  rewrite !createLayout_forEach, !ToLength_of_nat. unfold callback_of. rewrite Hs.
  destruct (forEach_in_turn c L 0 _ Hc (dealt_empty c Hc))
    as (cols & Hrun & _ & [Hlen _] & _ & Hpos).
  destruct (forEach_appends c _ (with_index L) 0 (replicate c [])
              (place_by_index_appends c Hc))
    as (indexed & Hrun' & _ & Hperm & _).
  { by rewrite length_replicate. }
  exists cols, indexed. repeat (split; [done|]). split.
  - apply (forEach_by_index_fmap snd) in Hrun'.
    rewrite with_index_snd, fmap_replicate in Hrun'. simpl in Hrun'. congruence.
  - rewrite concat_replicate_nil in Hperm. simpl in Hperm.
    rewrite (resort_with_index L _ Hperm). apply with_index_snd.
Qed.

(** Instances on three columns. *)

Lemma createLayout_partitions_items_witness :
  0 < 3 /\
  exists cols,
    createLayout flat shortest_height_options (Some 3%Z) [5; 6; 7; 8; 9; 10; 11] [] = Ok cols
    /\ length cols = 3
    /\ concat cols ≡ₚ [5; 6; 7; 8; 9; 10; 11].
Proof.
  split; [lia|].
  destruct (createLayout_partitions_items flat shortest_height_options 3
              [5; 6; 7; 8; 9; 10; 11] [] ltac:(lia)) as (cols & H1 & H2 & H3 & _).
  exists cols. exact (conj H1 (conj H2 H3)).
Defined.

Lemma sequential_deals_in_turn_witness :
  0 < 3 /\ strategy_of sequential_options = sequential /\
  exists cols indexed,
    createLayout flat sequential_options (Some 3%Z) [5; 6; 7; 8; 9; 10; 11] [] = Ok cols
    /\ createLayout (fun _ _ => 0%Z) sequential_options (Some 3%Z)
         (with_index [5; 6; 7; 8; 9; 10; 11]) [] = Ok indexed
    /\ (resort (concat indexed)).*2 = [5; 6; 7; 8; 9; 10; 11].
Proof.
  split; [lia|]. split; [reflexivity|].
  destruct (sequential_deals_in_turn flat (fun _ _ => 0%Z) sequential_options 3
              [5; 6; 7; 8; 9; 10; 11] [] [] ltac:(lia) eq_refl)
    as (cols & indexed & H1 & _ & _ & H4 & _ & H6).
  exists cols, indexed. exact (conj H1 (conj H4 H6)).
Defined.

Lemma fewest_items_takes_least_column_and_balances_witness :
  0 < 3 /\ strategy_of fewest_items_options = fewest_items
  /\ [5; 6; 7; 8; 9; 10; 11] !! 4 = Some 9
  /\ createLayout flat fewest_items_options (Some 3%Z) [5; 6; 7; 8] []
     = Ok [[5; 8]; [6]; [7]]
  /\ createLayout flat fewest_items_options (Some 3%Z) [5; 6; 7; 8; 9] []
     = Ok [[5; 8]; [6; 9]; [7]]
  /\ exists cols,
       createLayout flat fewest_items_options (Some 3%Z) [5; 6; 7; 8; 9; 10; 11] []
       = Ok cols
       /\ concat cols ≡ₚ [5; 6; 7; 8; 9; 10; 11]
       /\ forall i j col_i col_j, cols !! i = Some col_i -> cols !! j = Some col_j ->
            length col_i <= length col_j + 1.
Proof.
  split; [lia|]. split; [reflexivity|]. split; [reflexivity|].
  destruct (fewest_items_takes_least_column_and_balances flat fewest_items_options 3
              [5; 6; 7; 8; 9; 10; 11] [] ltac:(lia) eq_refl) as (_ & Hstep & Hend).
  destruct (Hstep 4 9 eq_refl)
    as (before & j & column & after & H1 & _ & H3 & H4 & H5 & H6 & _ & H8 & H9).
  assert (before = [[5; 8]; [6]; [7]]) as ->.
  { vm_compute in H1. by injection H1 as <-. }
  assert (j = 1) as ->.
  { destruct j as [|[|[|j]]]; [| |exfalso|discriminate H3].
    - injection H3 as <-. specialize (H4 1 [6] eq_refl). simpl in H4. lia.
    - reflexivity.
    - injection H3 as <-. specialize (H5 1 [6] ltac:(lia) eq_refl). simpl in H5. lia. }
  injection H3 as <-.
  assert (after = [[5; 8]; [6; 9]; [7]]) as ->.
  { apply list_eq. intros [|[|[|i]]].
    - exact (H9 0 ltac:(lia)).
    - exact H8.
    - exact (H9 2 ltac:(lia)).
    - rewrite (H9 (S (S (S i))) ltac:(lia)). reflexivity. }
  split; [exact H1|]. split; [exact H6|].
  destruct Hend as (cols & Hcols & _ & Hperm & Hbalance).
  exists cols. exact (conj Hcols (conj Hperm Hbalance)).
Defined.

Lemma shortest_height_takes_least_column_witness :
  0 < 3 /\ strategy_of shortest_height_options = shortest_height
  /\ [5; 1; 2; 1; 4] !! 3 = Some 1
  /\ createLayout (additive_height Z.of_nat) shortest_height_options (Some 3%Z) [5; 1; 2] []
     = Ok [[5]; [1]; [2]]
  /\ first_least (additive_height Z.of_nat [[5]; [1]; [2]]) 3 1
  /\ createLayout (additive_height Z.of_nat) shortest_height_options (Some 3%Z)
       [5; 1; 2; 1] []
     = Ok [[5]; [1; 1]; [2]].
Proof.
  split; [lia|]. split; [reflexivity|]. split; [reflexivity|].
  destruct (shortest_height_takes_least_column (additive_height Z.of_nat)
              shortest_height_options 3 [5; 1; 2; 1; 4] [] ltac:(lia) eq_refl)
    as (_ & Hstep).
  destruct (Hstep 3 1 eq_refl)
    as (before & j & column & after & H1 & _ & H3 & H4 & H5 & _ & H7 & H8).
  assert (before = [[5]; [1]; [2]]) as ->.
  { vm_compute in H1. by injection H1 as <-. }
  assert (j = 1) as ->.
  { destruct H3 as (_ & Hle & Hlt). destruct j as [|[|[|j]]]; [| |exfalso|discriminate H4].
    - specialize (Hle 1 ltac:(lia)). vm_compute in Hle. by destruct Hle.
    - reflexivity.
    - specialize (Hlt 1 ltac:(lia)). vm_compute in Hlt. discriminate Hlt. }
  injection H4 as <-.
  assert (after = [[5]; [1; 1]; [2]]) as ->.
  { apply list_eq. intros [|[|[|i]]].
    - exact (H8 0 ltac:(lia)).
    - exact H7.
    - exact (H8 2 ltac:(lia)).
    - rewrite (H8 (S (S (S i))) ltac:(lia)). reflexivity. }
  split; [exact H1|]. split; [exact H3|]. exact H5.
Defined.

Lemma fewest_items_is_sequential_witness :
  0 < 3 /\ strategy_of fewest_items_options = fewest_items
  /\ strategy_of sequential_options = sequential /\
  exists cols,
    createLayout flat fewest_items_options (Some 3%Z) [5; 6; 7; 8; 9; 10; 11] [] = Ok cols
    /\ createLayout flat sequential_options (Some 3%Z) [5; 6; 7; 8; 9; 10; 11] [[4]; [4]]
       = Ok cols.
Proof.
  split; [lia|]. split; [reflexivity|]. split; [reflexivity|].
  destruct (fewest_items_is_sequential flat fewest_items_options sequential_options 3
              [5; 6; 7; 8; 9; 10; 11] [] [[4]; [4]] ltac:(lia) eq_refl eq_refl)
    as (cols & H1 & H2 & _).
  exists cols. exact (conj H1 H2).
Defined.

(** ** The rate limiter *)

Local Open Scope Z_scope.

Section ThrottleFacts.
Context {World Args : Type}.
Variable func : Args -> World -> World.
Variable limit : Z.

(** Inside the window a call only replaces the pending timeout, by one
    that is due at the end of the window and closes over the time of the
    call. *)
Lemma deliver_in_window t0 (s : @closure Args * World) e :
  t0 <> 0 -> in_window limit t0 s -> t0 <= at_time e < t0 + limit ->
  in_window limit t0 (deliver func limit s e)
  /\ (deliver func limit s e).2 = change e s.2.
Proof.
  intros Ht0 [Hran Hpending] He. destruct s as [[pending ran] w]. simpl in *. subst ran.
  assert (run_due func limit (at_time e) ({| lastFunc := pending; lastRan := Some t0 |}, w)
          = ({| lastFunc := pending; lastRan := Some t0 |}, w)) as Hdue.
  { unfold run_due. simpl. destruct pending as [t|]; [|done].
    destruct Hpending as [Hdue Hnow]. by destruct (Z.leb_spec (due t) (at_time e)); [lia|]. }
  unfold deliver. rewrite Hdue. unfold throttle. simpl.
  destruct (Z.eqb_spec t0 0); [done|].
  replace (at_time e + Z.max 0 (limit - (at_time e - t0))) with (t0 + limit) by lia.
  split; [|done]. split; [done|]. simpl. lia.
Qed.

(** Such a timeout does nothing when it runs: the [now] it closes over is
    less than [limit] after [lastRan]. *)
Lemma silence_in_window t0 (s : @closure Args * World) :
  in_window limit t0 s -> (silence func limit s).2 = s.2.
Proof.
  intros [Hran Hpending]. destruct s as [[pending ran] w]. simpl in *. subst ran.
  destruct pending as [t|]; [|done]. simpl.
  destruct Hpending as [_ Hnow]. by destruct (Z.leb_spec limit (call_now t - t0)); [lia|].
Qed.

Lemma burst_in_window t0 signals (s : @closure Args * World) :
  t0 <> 0 -> in_window limit t0 s ->
  Forall (fun e => t0 <= at_time e < t0 + limit) signals ->
  in_window limit t0 (foldl (deliver func limit) s signals)
  /\ (foldl (deliver func limit) s signals).2 = foldl (fun w e => change e w) s.2 signals.
Proof.
  intros Ht0 Hs Hall. revert s Hs.
  induction Hall as [|e signals He _ IH]; intros s Hs; [done|]. simpl.
  destruct (deliver_in_window t0 s e Ht0 Hs He) as [Hs' Hw].
  destruct (IH _ Hs') as [Hend Hworld]. split; [done|]. by rewrite Hworld, Hw.
Qed.

(** A burst inside one window, then silence: [func] has run once, for the
    first signal; the changes that the later signals made to the world are
    there, and no call of [func] has seen them. *)
Lemma burst_runs_func_once (first : signal) (rest : list signal) (w : World) :
  at_time first <> 0 ->
  Forall (fun e => at_time first <= at_time e < at_time first + limit) rest ->
  (burst_then_silence func limit (first :: rest) w).2
  = foldl (fun w e => change e w) (func (with_args first) (change first w)) rest.
Proof.
  intros Ht0 Hall. unfold burst_then_silence. simpl.
  set (s1 := deliver func limit (fresh, w) first).
  assert (in_window limit (at_time first) s1
          /\ s1.2 = func (with_args first) (change first w)) as [Hs1 Hw1] by done.
  destruct (burst_in_window _ rest s1 Ht0 Hs1 Hall) as [Hend Hworld].
  by rewrite (silence_in_window _ _ Hend), Hworld, Hw1.
Qed.
End ThrottleFacts.

Lemma last_cons {A} (a d : A) (l : list A) : List.last (a :: l) d = List.last l a.
Proof.
  revert a d. induction l as [|b l IH]; intros a d; [done|].
  change (List.last (b :: l) d = List.last (b :: l) a). by rewrite !IH.
Qed.

Lemma resizes_change_width_only {Item : Type} (q : @page Item) (l : list (Z * Z)) :
  let q' := foldl (fun w (e : @signal (@page Item) unit) => change e w) q
              ((fun s => resize s.1 s.2) <$> l) in
  handled q' = handled q /\ layout q' = layout q
  /\ innerWidth q' = List.last l.*2 (innerWidth q).
Proof.
  revert q. induction l as [|[t w] l IH]; intros q; [done|].
  cbn zeta in *. rewrite fmap_cons. simpl foldl.
  destruct (IH {| innerWidth := w; layout := layout q; handled := handled q |})
    as (-> & -> & ->).
  split; [done|]. split; [done|]. by rewrite fmap_cons, last_cons.
Qed.

(** For the resize listener: of a burst of resizes inside 200 ms only the
    first is handled; the window has the last width, and the layout has
    not seen it. *)
Lemma after_resizes_handles_first_only {Item : Type}
    (offsetHeight : list (list Item) -> nat -> Z) (p : page) (t0 w0 : Z)
    (rest : list (Z * Z)) :
  t0 <> 0 -> Forall (fun s => t0 <= s.1 < t0 + 200) rest ->
  handled (after_resizes offsetHeight p ((t0, w0) :: rest)) = handled p ++ [w0]
  /\ layout (after_resizes offsetHeight p ((t0, w0) :: rest))
     = (let* this := layout p in handleResize offsetHeight this w0)
  /\ innerWidth (after_resizes offsetHeight p ((t0, w0) :: rest))
     = List.last rest.*2 w0.
Proof.
  intros Ht0 Hall. unfold after_resizes. rewrite fmap_cons.
  rewrite burst_runs_func_once; [|done|by apply Forall_fmap].
  match goal with
  | |- context [foldl _ ?q _] =>
      destruct (resizes_change_width_only q rest) as (-> & -> & ->)
  end.
  done.
Qed.

(** C6. Two resizes 50 ms apart on a page loaded at width 400 with the
    thresholds 100 and 300: the first, to width 250, is handled at once
    and gives two columns; the second, to width 50, registers a timeout
    whose callback compares the time of that call, not the time at which it
    runs, with [lastRan], and so does nothing. After the burst the window
    is 50 wide, [handleResize] has run for the width 250 only, and the
    layout still has the two columns of width 250, where width 50 resolves
    to one column: the state does not reflect the most recent width. *)
Theorem throttle_drops_the_last_resize :
  (exists this0, (layout example_page).1 = Ok this0 /\ columnCount this0 = Some 3)
  /\ innerWidth (after_resizes flat example_page example_burst) = 50
  /\ handled (after_resizes flat example_page example_burst) = [250]
  /\ (exists this,
        (layout (after_resizes flat example_page example_burst)).1 = Ok this
        /\ columnCount this = Some 2
        /\ container this = [[1; 3]; [2]]%nat)
  /\ resolve 50 T_100_300 = Ok (Some 1).
Proof.
  split; [|split; [|split; [|split]]].
  - eexists. split; [vm_compute; reflexivity|]. reflexivity.
  - vm_compute; reflexivity.
  - vm_compute; reflexivity.
  - eexists. split; [vm_compute; reflexivity|]. split; reflexivity.
  - vm_compute; reflexivity.
Qed.

(** ** Error handling *)

Section ErrorHandling.
Context {Item : Type}.
Variable offsetHeight : list (list Item) -> nat -> Z.

(** X26. For every attribute that [JSON.parse] rejects (a missing attribute
    included), every item list, every option set and every width, the
    constructor returns normally with the table [{ default: 2 }] in place
    of the attribute; the first thing on the console is the
    [console.error] for the attribute; the column count is 2; and the
    layout of the next frame returns normally with two columns that hold
    the items. *)
Theorem constructor_falls_back_when_parse_fails
    (attr : option string) (items : list Item) (opts : options) (innerWidth : Z) :
  constructor items opts (SyntaxError attr) innerWidth
  = (Ok {| container := []; originalItems := items;
           breakpointCols := JObject fallback; columnCount := Some 2;
           masonryOptions := opts |},
     error_invalid_format attr ::
     (if debug opts then [log_parsed (JObject fallback); log_options opts] else []))
  /\ exists cols,
       createLayout_method offsetHeight
         {| container := []; originalItems := items;
            breakpointCols := JObject fallback; columnCount := Some 2;
            masonryOptions := opts |}
       = (Ok {| container := cols; originalItems := items;
                breakpointCols := JObject fallback; columnCount := Some 2;
                masonryOptions := opts |}, [])
       /\ length cols = 2%nat /\ concat cols ≡ₚ items.
Proof.
  split.
  - unfold constructor. by destruct (debug opts).
  - destruct (forEach_appends 2 _ items 0 (replicate 2 [])
                (callback_of_appends offsetHeight opts 2 ltac:(lia)))
      as (cols & Hrun & Hlen & Hperm & _); [done|].
    exists cols. unfold createLayout_method. simpl.
    rewrite (createLayout_forEach offsetHeight opts (Some 2) items []).
    change (forEach (callback_of offsetHeight opts (Some 2)) items 0
              (replicate (ToLength (Some 2)) []) = Ok cols) in Hrun.
    by rewrite Hrun.
Qed.

(** An attribute that parses does not reach the [catch] branch. [null] is
    an object for [typeof] and is kept; [Object.keys] then raises in
    [calculateColumnCount]. *)
Lemma constructor_null (items : list Item) (opts : options) (innerWidth : Z) :
  (constructor items opts (Parsed json_null) innerWidth).1
  = Throw (TypeError "Cannot convert undefined or null to object").
Proof. unfold constructor. by destruct (debug opts). Qed.

(** C8, amended. A table whose [default] is a non-positive number [d] is
    not rejected when the configuration is loaded: the constructor returns
    normally, keeps the table, and writes no error on the console; and
    whenever the width exceeds every threshold the column count is [d], for
    which the layout prepares no column at all. *)
Theorem constructor_accepts_nonpositive_default
    (items : list Item) (opts : options) (T : Table.t) (d innerWidth : Z)
    (existing : list (list Item)) :
  Table.default T = Some d -> d <= 0 ->
  exists this out,
    constructor items opts (Parsed (json_object T)) innerWidth = (Ok this, out)
    /\ (forall attr, error_invalid_format attr ∉ out)
    /\ breakpointCols this = JObject T
    /\ ((forall t, is_Some (Table.thresholds T !! t) -> t < innerWidth) ->
        columnCount this = Some d /\ prepare_columns (Some d) existing = []).
Proof.
  intros Hd Hneg. unfold constructor, calculateColumnCount. simpl.
  destruct (match_breakpoint_returns (debug opts) innerWidth T
              (sort_ascending (threshold_keys T)) (Table.default T))
    as (v & out & Hrun & Hout).
  rewrite Hrun.
  assert ((forall t, is_Some (Table.thresholds T !! t) -> t < innerWidth) ->
          v = Some d /\ prepare_columns (Some d) existing = []) as Hcount.
  { intros Hall. rewrite match_breakpoint_miss in Hrun.
    - injection Hrun as <- <-. split; [done|]. rewrite prepare_columns_empty.
      simpl. by replace (Z.to_nat d) with 0%nat by lia.
    - intros t Ht. apply Hall. by apply elem_of_sorted_keys. }
  destruct (debug opts); simpl.
  - eexists _, _. split; [done|]. split; [|split; [done|done]].
    rewrite app_nil_r. intros attr Hin.
    apply elem_of_cons in Hin as [Heq|Hin]; [discriminate|].
    apply elem_of_cons in Hin as [Heq|Hin]; [discriminate|by apply (Hout attr)].
  - eexists _, _. split; [done|]. split; [|split; [done|done]].
    by rewrite app_nil_r.
Qed.

(** C9, amended. With a column count of zero [createLayout] checks
    nothing: it prepares no column; on an empty item list it returns
    normally with no column; on any other item list, under every strategy,
    it ends at the first item by the engine's [TypeError] for
    [appendChild] of [undefined]. *)
Theorem createLayout_zero_columns (items : list Item) (opts : options)
    (existing : list (list Item)) :
  prepare_columns (Some 0) existing = []
  /\ createLayout offsetHeight opts (Some 0) items existing
     = match items with
       | [] => Ok []
       | _ :: _ => Throw appendChild_of_undefined
       end.
Proof.
  split; [by rewrite prepare_columns_empty|].
  rewrite createLayout_forEach. simpl. destruct items as [|item items]; [done|].
  unfold callback_of. by destruct (strategy_of opts).
Qed.
End ErrorHandling.

(** C7. The attribute [null] is not recovered from. [JSON.parse] accepts
    it and [typeof null] is ["object"], so the [try] keeps [null] as the
    table and writes no [console.error]; [calculateColumnCount] then calls
    [Object.keys(null)], outside the [try], and the constructor ends by
    that [TypeError]: there is no fallback table, no diagnostic, no layout
    object and no column count. The same container with an attribute that
    [JSON.parse] rejects gets the table [{ default: 2 }], the diagnostic
    and two columns. *)
Theorem constructor_throws_on_null_attribute :
  parse_breakpointCols (Parsed json_null) = (Ok JNull, [])
  /\ typeof_object JNull = true
  /\ constructor [1; 2; 3]%nat sequential_options (Parsed json_null) 800
     = (Throw (TypeError "Cannot convert undefined or null to object"), [])
  /\ constructor [1; 2; 3]%nat sequential_options (SyntaxError (Some "nul"%string)) 800
     = (Ok {| container := []; originalItems := [1; 2; 3]%nat;
              breakpointCols := JObject fallback; columnCount := Some 2;
              masonryOptions := sequential_options |},
        [error_invalid_format (Some "nul"%string)]).
Proof. repeat split. Qed.

Lemma constructor_accepts_nonpositive_default_witness :
  Table.default (Table.mk ∅ (Some 0)) = Some 0 /\ 0 <= 0 /\
  exists this out,
    constructor [1; 2; 3]%nat sequential_options
      (Parsed (json_object (Table.mk ∅ (Some 0)))) 800 = (Ok this, out)
    /\ (forall attr, error_invalid_format attr ∉ out).
Proof.
  split; [reflexivity|]. split; [lia|].
  destruct (constructor_accepts_nonpositive_default [1; 2; 3]%nat sequential_options
              (Table.mk ∅ (Some 0)) 0 800 [] eq_refl ltac:(lia))
    as (this & out & H1 & H2 & _).
  exists this, out. exact (conj H1 H2).
Defined.

(** C8 as stated does not hold: a table with the default 0 is loaded at
    width 800 without any exception; the column count is 0, and the layout
    that follows prepares no column and takes the remainder by zero. *)
Lemma constructor_accepts_zero_default :
  constructor [1; 2; 3]%nat sequential_options
    (Parsed (json_object (Table.mk ∅ (Some 0)))) 800
  = (Ok {| container := []; originalItems := [1; 2; 3]%nat;
           breakpointCols := JObject (Table.mk ∅ (Some 0));
           columnCount := Some 0; masonryOptions := sequential_options |}, [])
  /\ ~ rejected (constructor [1; 2; 3]%nat sequential_options
                   (Parsed (json_object (Table.mk ∅ (Some 0)))) 800)
  /\ prepare_columns (Some 0) ([] : list (list nat)) = []
  /\ js_rem 0 (Some 0) = NaN.
Proof.
  split; [by vm_compute|]. split; [|done].
  intros [message Hm]. vm_compute in Hm. discriminate.
Qed.

(** C9 as stated does not hold: with a column count of zero and three
    items the call ends by the engine's [TypeError], not by an error of its
    own, after [0 % 0] has given [NaN] and [columns[NaN]] has given
    [undefined] without complaint; with no item it returns normally. *)
Lemma createLayout_zero_columns_no_check :
  createLayout flat sequential_options (Some 0) [1; 2; 3]%nat []
  = Throw appendChild_of_undefined
  /\ ~ fails_descriptively (createLayout flat sequential_options (Some 0) [1; 2; 3]%nat [])
  /\ js_rem 0 (Some 0) = NaN
  /\ array_index 0 NaN = None
  /\ createLayout flat sequential_options (Some 0) [] [] = Ok [].
Proof.
  split; [by vm_compute|]. split; [|done].
  intros [message Hm]. vm_compute in Hm. discriminate.
Qed.

(** * Further properties *)

(** ** [createLayout] *)

Local Open Scope nat_scope.

Section LayoutMore.
Context {Item : Type}.
Variable offsetHeight : list (list Item) -> nat -> Z.
Implicit Types (cols existing : list (list Item)) (items : list Item).

(** X1. [createLayout] is a rebuild from nothing: whether it empties the
    columns it finds or makes new ones, the result depends on the options,
    the column count and the items only, not on the columns the container
    had. *)
Theorem createLayout_ignores_existing_columns (opts : options) (columnCount : value)
    items existing existing' :
  createLayout offsetHeight opts columnCount items existing
  = createLayout offsetHeight opts columnCount items existing'.
Proof. by rewrite !createLayout_forEach. Qed.

(** X2. With no item, [createLayout] returns normally under every strategy
    and for every column count, with as many empty columns as the count
    asks for (none for a count that is zero, negative or [undefined]). *)
Theorem createLayout_no_items (opts : options) (columnCount : value) existing :
  createLayout offsetHeight opts columnCount [] existing
  = Ok (replicate (ToLength columnCount) []).
Proof. by rewrite createLayout_forEach. Qed.

(** X3. With at least one item and a column count that is zero, negative
    or [undefined], [createLayout] ends by the [TypeError] for
    [appendChild] of [undefined], under every strategy. *)
Theorem createLayout_invalid_count_raises (opts : options) (columnCount : value)
    items existing :
  no_columns columnCount -> items <> [] ->
  createLayout offsetHeight opts columnCount items existing
  = Throw appendChild_of_undefined.
Proof.
  intros Hc Hitems. rewrite createLayout_forEach.
  assert (ToLength columnCount = 0) as ->.
  { destruct columnCount as [c|]; [|done]. simpl in *. lia. }
  destruct items as [|item items]; [done|]. simpl.
  unfold callback_of. destruct (strategy_of opts); [|done..].
  unfold place_by_index, js_rem. destruct columnCount as [c|]; [|done].
  by destruct (c =? 0)%Z.
Qed.

(** X4. Under the sequential and the fewest-items strategy, [n] items in
    [c >= 1] columns leave [n / c] items in every column and one more in
    each of the first [n mod c] columns. *)
Theorem createLayout_column_sizes (opts : options) (c : nat) items existing :
  0 < c -> strategy_of opts <> shortest_height ->
  exists cols,
    createLayout offsetHeight opts (Some (Z.of_nat c)) items existing = Ok cols
    /\ length cols = c
    /\ forall j col, cols !! j = Some col ->
         length col
         = length items / c + (if decide (j < length items mod c) then 1 else 0).
Proof.
  intros Hc Hs. rewrite createLayout_forEach, ToLength_of_nat.
  destruct (forEach_in_turn c items 0 _ Hc (dealt_empty c Hc))
    as (cols & Hseq & Hcount & [Hlen Hcols] & _).
  exists cols. split; [|done].
  unfold callback_of. by destruct (strategy_of opts).
Qed.

(** Every column as high as the first: the reducer keeps [columns[0]]. *)
Lemma reduce_least_level measure n :
  0 < n -> (forall k, measure k = measure 0) -> reduce_least measure n = Some 0.
Proof.
  intros Hn Hlevel.
  destruct (reduce_least_first_least measure n Hn) as (j & -> & Hj).
  f_equal. apply (first_least_unique measure n); [done|].
  split; [done|]. split; [|lia]. intros k _. rewrite (Hlevel k). lia.
Qed.

Lemma forEach_first_column callback items index col cols :
  (forall item index col, callback item index (col :: cols) = Ok ((col ++ [item]) :: cols)) ->
  forEach callback items index (col :: cols) = Ok ((col ++ items) :: cols).
Proof.
  intros Hcb. revert index col.
  induction items as [|item items IH]; intros index col; simpl.
  - by rewrite app_nil_r.
  - rewrite Hcb, IH. by rewrite <- (assoc_L (++)).
Qed.

(** X5. Under the shortest-height strategy, when the provider reports the
    same height for all columns whatever they hold (a container that is not
    rendered, say), the strict comparison never leaves [columns[0]]: all
    items go to the first column, in their order, and the others stay
    empty. *)
Theorem shortest_height_level_columns (opts : options) (c : nat) items existing :
  0 < c -> strategy_of opts = shortest_height ->
  (forall cols k, offsetHeight cols k = offsetHeight cols 0) ->
  createLayout offsetHeight opts (Some (Z.of_nat c)) items existing
  = Ok (items :: replicate (c - 1) []).
Proof.
  intros Hc Hs Hlevel. rewrite createLayout_forEach, ToLength_of_nat.
  unfold callback_of. rewrite Hs.
  destruct c as [|c]; [lia|]. simpl. rewrite Nat.sub_0_r.
  apply (forEach_first_column _ items 0 []).
  intros item index col. unfold place_by_height.
  by rewrite reduce_least_level; [|simpl; lia|apply Hlevel].
Qed.
End LayoutMore.

Section Additive.
Context {Item : Type}.
Variable weight : Item -> Z.
Implicit Types (cols existing : list (list Item)) (items : list Item).

Lemma additive_height_append j item cols k :
  j < length cols ->
  additive_height weight (append_to j item cols) k
  = (additive_height weight cols k + (if decide (k = j) then weight item else 0))%Z.
Proof.
  intros Hj. unfold additive_height, append_to. case_decide as Hk.
  - subst k. rewrite list_lookup_alter_eq.
    destruct (lookup_lt_is_Some_2 cols j Hj) as [col ->]. simpl.
    induction col as [|x col IH]; simpl; lia.
  - rewrite list_lookup_alter_ne by done. lia.
Qed.

Lemma additive_height_empty c k : additive_height weight (replicate c []) k = 0%Z.
Proof.
  unfold additive_height. destruct (replicate c [] !! k) as [col|] eqn:Hk; [|done].
  by apply lookup_replicate in Hk as [-> _].
Qed.

(** The greedy step keeps the columns within [W] of each other when no
    item weighs more than [W]. *)
Lemma forEach_by_height_balanced (W : Z) c items index cols :
  0 < c -> length cols = c ->
  Forall (fun item => (0 <= weight item <= W)%Z) items ->
  (forall i j, i < c -> j < c ->
     (additive_height weight cols i <= additive_height weight cols j + W)%Z) ->
  exists cols',
    forEach (place_by_height (additive_height weight)) items index cols = Ok cols'
    /\ length cols' = c
    /\ forall i j, i < c -> j < c ->
         (additive_height weight cols' i <= additive_height weight cols' j + W)%Z.
Proof.
  intros Hc Hlen Hall. revert index cols Hlen.
  induction Hall as [|item items [Hw0 HwW] _ IH]; intros index cols Hlen Hbal; simpl.
  - by exists cols.
  - unfold place_by_height at 1. rewrite Hlen.
    destruct (reduce_least_first_least (additive_height weight cols) c Hc)
      as (m & -> & Hm & Hleast & _).
    simpl. apply IH; [unfold append_to; by rewrite length_alter|].
    intros i j Hi Hj. rewrite !additive_height_append by lia.
    pose proof (Hbal i j Hi Hj). pose proof (Hleast i Hi). pose proof (Hleast j Hj).
    repeat case_decide; subst; lia.
Qed.

(** With one weight for every item the least column by height is the least
    column by count. *)
Lemma additive_height_uniform (w : Z) cols k :
  (forall item, weight item = w) ->
  additive_height weight cols k = (w * children_length cols k)%Z.
Proof.
  intros Hw. unfold additive_height, children_length.
  destruct (cols !! k) as [col|]; simpl; [|lia].
  induction col as [|x col IH]; simpl; [lia|]. rewrite IH, Hw. lia.
Qed.

Lemma first_least_scale (w : Z) measure measure' n j :
  (0 < w)%Z -> (forall k, measure' k = (w * measure k)%Z) ->
  first_least measure n j -> first_least measure' n j.
Proof.
  intros Hw Hscale (Hj & Hmin & Hfirst). split; [done|]. split.
  - intros k Hk. rewrite !Hscale. specialize (Hmin k Hk). nia.
  - intros k Hk. rewrite !Hscale. specialize (Hfirst k Hk). nia.
Qed.

Lemma place_by_height_uniform_turn (w : Z) c k item index cols :
  0 < c -> (0 < w)%Z -> (forall item, weight item = w) -> dealt cols c k ->
  place_by_height (additive_height weight) item index cols
  = Ok (append_to (k mod c) item cols).
Proof.
  intros Hc Hw Huni Hd. unfold place_by_height.
  pose proof (dealt_first_least _ _ _ Hc Hd) as Hk. destruct Hd as [Hlen _].
  rewrite Hlen.
  destruct (reduce_least_first_least (additive_height weight cols) c Hc) as (j & -> & Hj).
  apply (first_least_scale w (children_length cols) (additive_height weight cols)) in Hk;
    [|done|]; [|by intros; apply additive_height_uniform].
  by rewrite (first_least_unique _ _ _ _ Hj Hk).
Qed.

Lemma forEach_by_height_uniform (w : Z) c items k cols :
  0 < c -> (0 < w)%Z -> (forall item, weight item = w) -> dealt cols c k ->
  forEach (place_by_height (additive_height weight)) items k cols
  = forEach (place_by_index (Some (Z.of_nat c))) items k cols.
Proof.
  intros Hc Hw Huni. revert k cols.
  induction items as [|item items IH]; intros k cols Hd; [done|]. simpl.
  rewrite (place_by_height_uniform_turn w c k) by done.
  rewrite place_by_index_turn by (done || apply Hd).
  apply IH. by apply dealt_append.
Qed.

(** X6. Under the shortest-height strategy with a provider that adds up a
    weight per item, weights between 0 and [W], the finished columns are
    within [W] of each other in height. *)
Theorem shortest_height_additive_balance (opts : options) (c : nat) (W : Z)
    items existing :
  0 < c -> strategy_of opts = shortest_height -> (0 <= W)%Z ->
  Forall (fun item => (0 <= weight item <= W)%Z) items ->
  exists cols,
    createLayout (additive_height weight) opts (Some (Z.of_nat c)) items existing = Ok cols
    /\ length cols = c
    /\ forall i j, i < c -> j < c ->
         (additive_height weight cols i <= additive_height weight cols j + W)%Z.
Proof.
  intros Hc Hs HW Hall. rewrite createLayout_forEach, ToLength_of_nat.
  unfold callback_of. rewrite Hs.
  apply forEach_by_height_balanced; [done|by rewrite length_replicate|done|].
  intros i j _ _. rewrite !additive_height_empty. lia.
Qed.

(** X7. Under the shortest-height strategy with a provider that adds up the
    same positive weight for every item, the columns are those of the
    sequential strategy. *)
Theorem shortest_height_uniform_is_sequential (opts_h opts_s : options) (c : nat)
    (w : Z) (offsetHeight : list (list Item) -> nat -> Z) items existing existing' :
  0 < c -> strategy_of opts_h = shortest_height -> strategy_of opts_s = sequential ->
  (0 < w)%Z -> (forall item, weight item = w) ->
  createLayout (additive_height weight) opts_h (Some (Z.of_nat c)) items existing
  = createLayout offsetHeight opts_s (Some (Z.of_nat c)) items existing'.
Proof.
  intros Hc Hh Hs Hw Huni. rewrite !createLayout_forEach, ToLength_of_nat.
  unfold callback_of. rewrite Hh, Hs.
  by apply (forEach_by_height_uniform w), dealt_empty.
Qed.
End Additive.

(** ** [calculateColumnCount], the constructor and [handleResize] *)

Local Open Scope Z_scope.

Lemma match_breakpoint_cases dbg w T l d :
  StronglySorted Z.le l ->
  (match_breakpoint dbg w T l d = (Ok d, []) /\ forall t, t ∈ l -> t < w)
  \/ exists t, t ∈ l /\ w <= t /\ (forall t', t' ∈ l -> w <= t' -> t <= t')
       /\ match_breakpoint dbg w T l d
          = (Ok (Table.thresholds T !! t),
             if dbg then [log_matched t (Table.thresholds T !! t)] else []).
Proof.
  induction 1 as [|h l Hs IH Hh].
  - left. split; [done|]. by intros t Ht%elem_of_nil.
  - simpl. destruct (Z.leb_spec w h) as [Hwh|Hwh].
    + right. exists h. split; [apply list_elem_of_here|]. split; [done|]. split.
      * intros t' Ht' _. apply elem_of_cons in Ht' as [->|Ht']; [lia|].
        rewrite Forall_forall in Hh. by apply Hh.
      * by destruct dbg.
    + destruct IH as [[Hrun Hall]|(t & Ht & Hwt & Hmin & Hrun)].
      * left. split; [done|]. intros t Ht. apply elem_of_cons in Ht as [->|Ht]; auto.
      * right. exists t. split; [by apply list_elem_of_further|]. split; [done|].
        split; [|done]. intros t' Ht' Hw'.
        apply elem_of_cons in Ht' as [->|Ht']; [lia|]. by apply Hmin.
Qed.

Lemma calculateColumnCount_cases (opts : options) (T : Table.t) (w : Z) :
  (calculateColumnCount opts (JObject T) w = (Ok (Table.default T), [])
   /\ forall t, is_Some (Table.thresholds T !! t) -> t < w)
  \/ exists t cols,
       Table.thresholds T !! t = Some cols /\ first_match w T t
       /\ calculateColumnCount opts (JObject T) w
          = (Ok (Some cols), matched_entry opts t (Some cols)).
Proof.
  unfold calculateColumnCount. cbn.
  destruct (match_breakpoint_cases (debug opts) w T (sort_ascending (threshold_keys T))
              (Table.default T) (sorted_keys_sorted T))
    as [[Hrun Hall]|(t & Ht & Hwt & Hmin & Hrun)].
  - left. split; [done|]. intros t Ht. by apply Hall, elem_of_sorted_keys.
  - right. apply elem_of_sorted_keys in Ht as Hsome. destruct Hsome as [cols Hcols].
    exists t, cols. split; [done|]. split.
    + split; [by eexists|]. split; [done|].
      intros t' Ht'. by apply Hmin, elem_of_sorted_keys.
    + rewrite Hrun, Hcols. done.
Qed.

Lemma match_breakpoint_no_threshold_between dbg w w' T l d :
  w <= w' -> (forall t, t ∈ l -> ~ (w <= t < w')) ->
  match_breakpoint dbg w T l d = match_breakpoint dbg w' T l d.
Proof.
  intros Hww. induction l as [|h l IH]; intros Hnone; [done|]. simpl.
  pose proof (Hnone h (list_elem_of_here _ _)) as Hh.
  destruct (Z.leb_spec w h), (Z.leb_spec w' h); try lia; [done|].
  apply IH. intros t Ht. by apply Hnone, list_elem_of_further.
Qed.

(** X8. On a table, [calculateColumnCount] never raises and never makes up
    a number: either the width exceeds every threshold, the result is
    [T.default] and nothing is written; or the result is the entry of the
    smallest threshold the width does not exceed, and the console gets that
    one match when [debug] is set. *)
Theorem calculateColumnCount_from_table (opts : options) (T : Table.t) (w : Z) :
  (calculateColumnCount opts (JObject T) w = (Ok (Table.default T), [])
   /\ forall t, is_Some (Table.thresholds T !! t) -> t < w)
  \/ exists t cols,
       Table.thresholds T !! t = Some cols /\ first_match w T t
       /\ calculateColumnCount opts (JObject T) w
          = (Ok (Some cols), matched_entry opts t (Some cols)).
Proof.
  unfold calculateColumnCount. cbn.
  destruct (match_breakpoint_cases (debug opts) w T (sort_ascending (threshold_keys T))
              (Table.default T) (sorted_keys_sorted T))
    as [[Hrun Hall]|(t & Ht & Hwt & Hmin & Hrun)].
  - left. split; [done|]. intros t Ht. by apply Hall, elem_of_sorted_keys.
  - right. apply elem_of_sorted_keys in Ht as Hsome. destruct Hsome as [cols Hcols].
    exists t, cols. split; [done|]. split.
    + split; [by eexists|]. split; [done|].
      intros t' Ht'. by apply Hmin, elem_of_sorted_keys.
    + rewrite Hrun, Hcols. done.
Qed.

(** X9. Two widths with no threshold between them (none at or above the
    smaller and below the larger) give the same column count and the same
    console output. *)
Theorem calculateColumnCount_between_thresholds (opts : options) (T : Table.t) (w w' : Z) :
  w <= w' ->
  (forall t, is_Some (Table.thresholds T !! t) -> ~ (w <= t < w')) ->
  calculateColumnCount opts (JObject T) w = calculateColumnCount opts (JObject T) w'.
Proof.
  intros Hww Hnone. unfold calculateColumnCount. cbn.
  apply match_breakpoint_no_threshold_between; [done|].
  intros t Ht. by apply Hnone, elem_of_sorted_keys.
Qed.

Lemma match_breakpoint_value dbg dbg' w T l d :
  (match_breakpoint dbg w T l d).1 = (match_breakpoint dbg' w T l d).1.
Proof.
  induction l as [|h l IH]; [done|]. simpl.
  destruct (w <=? h); [|done]. by destruct dbg, dbg'.
Qed.

(** The column count does not depend on the options. *)
Lemma calculateColumnCount_value opts opts' bc w :
  (calculateColumnCount opts bc w).1 = (calculateColumnCount opts' bc w).1.
Proof.
  destruct bc as [| |z|T]; try done. unfold calculateColumnCount. cbn.
  apply match_breakpoint_value.
Qed.

Lemma calculateColumnCount_valid opts T w :
  valid_table T ->
  exists (c : nat) out,
    calculateColumnCount opts (JObject T) w = (Ok (Some (Z.of_nat c)), out)
    /\ (0 < c)%nat /\ resolve w T = Ok (Some (Z.of_nat c)).
Proof.
  intros [(d & Hd & Hd1) Hvals].
  assert (forall v out, calculateColumnCount opts (JObject T) w = (Ok v, out) ->
            resolve w T = Ok v) as Hres.
  { intros v out Hrun. unfold resolve.
    by rewrite (calculateColumnCount_value _ opts), Hrun. }
  destruct (calculateColumnCount_cases opts T w)
    as [[Hrun _]|(t & cols & Hcols & _ & Hrun)].
  - exists (Z.to_nat d), []. rewrite Z2Nat.id by lia. rewrite <- Hd.
    split; [done|]. split; [lia|]. by apply (Hres _ []).
  - pose proof (Hvals _ _ Hcols). exists (Z.to_nat cols), (matched_entry opts t (Some cols)).
    rewrite Z2Nat.id by lia. split; [done|]. split; [lia|]. by apply (Hres _ _ Hrun).
Qed.

Section ObjectFacts.
Context {Item : Type}.
Variable offsetHeight : list (list Item) -> nat -> Z.
Implicit Types (this : @MasonryLayout Item) (items : list Item).

(** A layout for a column count of at least one gives a well laid out
    object. *)
Lemma createLayout_method_well_laid_out T items opts (c : nat) cols0 :
  (0 < c)%nat ->
  exists this',
    createLayout_method offsetHeight
      {| container := cols0; originalItems := items; breakpointCols := JObject T;
         columnCount := Some (Z.of_nat c); masonryOptions := opts |}
    = (Ok this', [])
    /\ well_laid_out T items opts this'
    /\ columnCount this' = Some (Z.of_nat c).
Proof.
  intros Hc. unfold createLayout_method. cbn [container originalItems breakpointCols
    columnCount masonryOptions].
  rewrite createLayout_forEach, ToLength_of_nat.
  destruct (forEach_appends c _ items 0 (replicate c [])
              (callback_of_appends offsetHeight opts c Hc))
    as (cols & -> & Hlen & Hperm & _).
  { by rewrite length_replicate. }
  rewrite concat_replicate_nil in Hperm. simpl in Hperm.
  eexists. split; [done|]. split; [|done].
  split; [done|]. split; [done|]. split; [done|]. by exists c.
Qed.

Lemma handleResize_well_laid_out T items opts this w :
  valid_table T -> well_laid_out T items opts this ->
  exists this' out,
    handleResize offsetHeight this w = (Ok this', out)
    /\ well_laid_out T items opts this'
    /\ resolve w T = Ok (columnCount this').
Proof.
  intros HT (Hitems & Hbc & Hopts & c0 & Hc0 & Hpos0 & Hlen0 & Hperm0).
  destruct (calculateColumnCount_valid opts T w HT) as (c & out & Hrun & Hc & Hres).
  unfold handleResize. rewrite Hbc, Hopts, Hrun. cbn [bind].
  case_decide as Hchange.
  - destruct (createLayout_method_well_laid_out T items opts c (container this) Hc)
      as (this' & Hlay & Hwell & Hcount).
    rewrite Hitems, Hlay. destruct (debug opts); cbn.
    + eexists _, _. split; [done|]. split; [done|]. by rewrite Hcount.
    + eexists _, _. split; [done|]. split; [done|]. by rewrite Hcount.
  - eexists _, _. split; [done|]. split.
    + split; [done|]. split; [done|]. split; [done|]. by exists c0.
    + by rewrite <- Hchange.
Qed.

Lemma loaded_well_laid_out (T : Table.t) items (opts : options) (w : Z) :
  valid_table T ->
  exists this out,
    layout (loaded offsetHeight items opts (Parsed (json_object T)) w) = (Ok this, out)
    /\ well_laid_out T items opts this
    /\ resolve w T = Ok (columnCount this).
Proof.
  intros HT.
  destruct (calculateColumnCount_valid opts T w HT) as (c & out & Hrun & Hc & Hres).
  destruct (createLayout_method_well_laid_out T items opts c [] Hc)
    as (this' & Hlay & Hwell & Hcount).
  unfold loaded, constructor. cbn [layout parse_breakpointCols].
  destruct (debug opts); cbn -[calculateColumnCount createLayout_method];
    rewrite Hrun; cbn -[createLayout_method]; rewrite Hlay; cbn.
  - eexists _, _. split; [done|]. split; [done|]. by rewrite Hcount.
  - eexists _, _. split; [done|]. split; [done|]. by rewrite Hcount.
Qed.

(** X10. With a table whose default and entries are all at least one, the
    constructor and the layout of the first frame return normally for every
    width, item list and option set: the column count is the one the width
    resolves to, and the container holds the items in that many
    columns. *)
Theorem loaded_valid_table_is_laid_out (T : Table.t) items (opts : options) (w : Z) :
  valid_table T ->
  exists this out,
    layout (loaded offsetHeight items opts (Parsed (json_object T)) w) = (Ok this, out)
    /\ well_laid_out T items opts this
    /\ resolve w T = Ok (columnCount this).
Proof.
  intros HT.
  destruct (calculateColumnCount_valid opts T w HT) as (c & out & Hrun & Hc & Hres).
  destruct (createLayout_method_well_laid_out T items opts c [] Hc)
    as (this' & Hlay & Hwell & Hcount).
  unfold loaded, constructor. cbn [layout parse_breakpointCols].
  destruct (debug opts); cbn -[calculateColumnCount createLayout_method];
    rewrite Hrun; cbn -[createLayout_method]; rewrite Hlay; cbn.
  - eexists _, _. split; [done|]. split; [done|]. by rewrite Hcount.
  - eexists _, _. split; [done|]. split; [done|]. by rewrite Hcount.
Qed.

(** X11. [handleResize] keeps a layout object well laid out: under a table
    whose default and entries are at least one it returns normally at every
    width, with the column count the width resolves to and the items in
    that many columns. *)
Theorem handleResize_keeps_layout (T : Table.t) items (opts : options) this (w : Z) :
  valid_table T -> well_laid_out T items opts this ->
  exists this' out,
    handleResize offsetHeight this w = (Ok this', out)
    /\ well_laid_out T items opts this'
    /\ resolve w T = Ok (columnCount this').
Proof.
  intros HT (Hitems & Hbc & Hopts & c0 & Hc0 & Hpos0 & Hlen0 & Hperm0).
  destruct (calculateColumnCount_valid opts T w HT) as (c & out & Hrun & Hc & Hres).
  unfold handleResize. rewrite Hbc, Hopts, Hrun. cbn [bind].
  case_decide as Hchange.
  - destruct (createLayout_method_well_laid_out T items opts c (container this) Hc)
      as (this' & Hlay & Hwell & Hcount).
    rewrite Hitems, Hlay. destruct (debug opts); cbn.
    + eexists _, _. split; [done|]. split; [done|]. by rewrite Hcount.
    + eexists _, _. split; [done|]. split; [done|]. by rewrite Hcount.
  - eexists _, _. split; [done|]. split.
    + split; [done|]. split; [done|]. split; [done|]. by exists c0.
    + by rewrite <- Hchange.
Qed.

Lemma bind_fst {A B} (m : M A) (k : A -> M B) :
  (bind m k).1 = match m.1 with Ok a => (k a).1 | Throw e => Throw e end.
Proof. destruct m as [[a|e] out]; [|done]. simpl. by destruct (k a). Qed.

Lemma handleResize_no_op this (w : Z) :
  (calculateColumnCount (masonryOptions this) (breakpointCols this) w).1
    = Ok (columnCount this) ->
  handleResize offsetHeight this w
  = (Ok this, (calculateColumnCount (masonryOptions this) (breakpointCols this) w).2).
Proof.
  intros Hsame. unfold handleResize.
  destruct (calculateColumnCount _ _ w) as [r out]. simpl in Hsame. subst r. cbn.
  case_decide as Hne; [done|]. cbn. by rewrite app_nil_r.
Qed.

(** What a call that returns leaves: the table and the options it had, and
    the column count of the width. *)
Lemma handleResize_returns this this' (w : Z) out :
  handleResize offsetHeight this w = (Ok this', out) ->
  masonryOptions this' = masonryOptions this
  /\ breakpointCols this' = breakpointCols this
  /\ originalItems this' = originalItems this
  /\ (calculateColumnCount (masonryOptions this) (breakpointCols this) w).1
     = Ok (columnCount this').
Proof.
  unfold handleResize.
  destruct (calculateColumnCount _ _ w) as [[n|e] out0]; [|done]. cbn [bind].
  case_decide as Hne.
  - unfold createLayout_method. cbn [container originalItems breakpointCols columnCount
      masonryOptions].
    destruct (createLayout offsetHeight (masonryOptions this) n (originalItems this)
                (container this)) as [cols|e];
      destruct (debug (masonryOptions this)); cbn; intros [= <- <-]; done.
  - cbn. intros [= <- <-]. by rewrite Hne.
Qed.

(** X12. When the width resolves to the column count the object already
    has, [handleResize] returns the object as it is (the container is not
    touched) and writes nothing but what [calculateColumnCount] wrote. *)
Theorem handleResize_same_count_is_no_op this (w : Z) :
  (calculateColumnCount (masonryOptions this) (breakpointCols this) w).1
    = Ok (columnCount this) ->
  handleResize offsetHeight this w
  = (Ok this, (calculateColumnCount (masonryOptions this) (breakpointCols this) w).2).
Proof.
  intros Hsame. unfold handleResize.
  destruct (calculateColumnCount _ _ w) as [r out]. simpl in Hsame. subst r. cbn.
  case_decide as Hne; [done|]. cbn. by rewrite app_nil_r.
Qed.

(** X13. Handling the same width twice in a row leaves what handling it
    once leaves: the second call finds the column count unchanged. This
    holds for every object, also when the first call raises. *)
Theorem handleResize_twice this (w : Z) :
  (let* this' := handleResize offsetHeight this w in handleResize offsetHeight this' w).1
  = (handleResize offsetHeight this w).1.
Proof.
  rewrite bind_fst.
  destruct (handleResize offsetHeight this w) as [[this'|e] out] eqn:Hfirst; [|done].
  apply handleResize_returns in Hfirst as (Hopts & Hbc & _ & Hcount). simpl.
  rewrite handleResize_no_op; [done|]. by rewrite Hopts, Hbc.
Qed.
End ObjectFacts.

(** ** [throttle], further *)

Section ThrottleInvariant.
Context {World Args : Type}.
Variable func : Args -> World -> World.
Variable limit : Z.
Variable P : World -> Prop.
Hypothesis func_keeps : forall args w, P w -> P (func args w).

Lemma timeout_callback_keeps t (s : @closure Args * World) :
  P s.2 -> P (timeout_callback func limit t s).2.
Proof.
  destruct s as [c w]. simpl. intros Hw.
  destruct (lastRan c) as [ran|]; [|done].
  destruct (limit <=? call_now t - ran); [|done]. by apply func_keeps.
Qed.

Lemma deliver_keeps (s : @closure Args * World) e :
  (forall w, P w -> P (change e w)) -> P s.2 -> P (deliver func limit s e).2.
Proof.
  intros He Hs. unfold deliver.
  assert (P (run_due func limit (at_time e) s).2) as Hdue.
  { destruct s as [c w]. unfold run_due. destruct (lastFunc c) as [t|]; [|done].
    destruct (due t <=? at_time e); [|done].
    by apply timeout_callback_keeps. }
  destruct (run_due func limit (at_time e) s) as [c w]. simpl in *.
  apply He in Hdue. unfold throttle.
  destruct (lastRan c) as [ran|]; [|by apply func_keeps].
  destruct (ran =? 0); [by apply func_keeps|done].
Qed.

(** The throttled function touches the world through [func] only. *)
Lemma burst_then_silence_keeps signals w :
  Forall (fun e => forall w, P w -> P (change e w)) signals ->
  P w -> P (burst_then_silence func limit signals w).2.
Proof.
  intros Hall Hw. unfold burst_then_silence.
  assert (forall s : @closure Args * World, P s.2 -> P (foldl (deliver func limit) s signals).2)
    as Hfold.
  { induction Hall as [|e signals He _ IH]; intros s Hs; [done|]. simpl.
    by apply IH, deliver_keeps. }
  specialize (Hfold (fresh, w) Hw).
  destruct (foldl (deliver func limit) (fresh, w) signals) as [c w']. unfold silence.
  destruct (lastFunc c) as [t|]; [|done].
  by apply timeout_callback_keeps.
Qed.
End ThrottleInvariant.

Section EventLoop.
Context {World Args : Type}.
Variable func : Args -> World -> World.
Variable limit : Z.

Lemma run_due_cases clock (s : @closure Args * World) :
  run_due func limit clock s = s
  \/ exists t, lastFunc s.1 = Some t
       /\ run_due func limit clock s
          = timeout_callback func limit t
              ({| lastFunc := None; lastRan := lastRan s.1 |}, s.2).
Proof.
  destruct s as [c w]. unfold run_due. simpl.
  destruct (lastFunc c) as [t|]; [|by left].
  destruct (due t <=? clock); [|by left]. right. by exists t.
Qed.

Lemma silence_cases (s : @closure Args * World) :
  (lastFunc s.1 = None /\ silence func limit s = s)
  \/ exists t, lastFunc s.1 = Some t
       /\ silence func limit s
          = timeout_callback func limit t
              ({| lastFunc := None; lastRan := lastRan s.1 |}, s.2).
Proof.
  destruct s as [c w]. unfold silence. simpl.
  destruct (lastFunc c) as [t|]; [|by left]. right. by exists t.
Qed.

Lemma deliver_unfold (s : @closure Args * World) e :
  deliver func limit s e
  = throttle func limit (at_time e) (with_args e)
      ((run_due func limit (at_time e) s).1, change e (run_due func limit (at_time e) s).2).
Proof. unfold deliver. by destruct (run_due func limit (at_time e) s). Qed.
End EventLoop.

Section Spacing.
Variable limit : Z.





End Spacing.

Section Served.
Variable limit : Z.

Lemma timeout_callback_served made t ran served :
  served_of made ({| lastFunc := Some t; lastRan := ran |}, served) ->
  served_of made
    (timeout_callback record_call limit t ({| lastFunc := None; lastRan := ran |}, served)).
Proof.
  intros [(before & -> & Hsub) (r & Hran & Hr)]. simpl in *. subst ran.
  destruct (limit <=? call_now t - r); unfold served_of; simpl.
  - unfold record_call. by apply sublist_app.
  - by apply sublist_inserts_r.
Qed.

Lemma deliver_served made (s : @closure Z * list Z) (now : Z) :
  served_of made s -> served_of (made ++ [now]) (deliver record_call limit s (call_at now)).
Proof.
  intros Hs. rewrite deliver_unfold.
  assert (served_of made (run_due record_call limit now s)) as Hdue.
  { destruct (run_due_cases record_call limit now s) as [->|(t & Ht & ->)]; [done|].
    destruct s as [[pending ran] served]. simpl in Ht. subst pending.
    by apply timeout_callback_served. }
  simpl. destruct (run_due record_call limit now s) as [[pending ran] served].
  unfold served_of in Hdue. simpl in Hdue.
  assert (sublist served made) as Hsub.
  { destruct pending as [t|]; [|done].
    destruct Hdue as [(before & -> & Hsub) _]. by apply sublist_inserts_r. }
  unfold throttle. simpl.
  destruct ran as [r|]; [destruct (Z.eqb_spec r 0) as [->|Hr]|].
  - destruct pending as [t|]; [by destruct Hdue as [_ (r & [= <-] & Hr)]|].
    unfold served_of, record_call. simpl. by apply sublist_app.
  - unfold served_of. simpl. split; [by exists made|by exists r].
  - destruct pending as [t|]; [by destruct Hdue as [_ (r & [=] & _)]|].
    unfold served_of, record_call. simpl. by apply sublist_app.
Qed.

Lemma burst_served (times made : list Z) (s : @closure Z * list Z) :
  served_of made s ->
  served_of (made ++ times) (foldl (deliver record_call limit) s (call_at <$> times)).
Proof.
  revert made s. induction times as [|t times IH]; intros made s Hs.
  - by rewrite app_nil_r.
  - simpl. rewrite (cons_middle t made times), (assoc_L (++)).
    by apply IH, deliver_served.
Qed.

(** X15. [throttle] runs [func] only for calls that were made, in the order
    they were made, and at most once for each. *)
Theorem throttle_serves_only_calls_made (times : list Z) :
  sublist (burst_then_silence record_call limit (call_at <$> times) []).2 times.
Proof.
  unfold burst_then_silence.
  assert (served_of [] (fresh, [])) as H0 by (unfold served_of; simpl; done).
  pose proof (burst_served times [] (fresh, []) H0) as Hs. simpl in Hs.
  destruct (silence_cases record_call limit
              (foldl (deliver record_call limit) (fresh, []) (call_at <$> times)))
    as [[Hnone ->]|(t & Ht & ->)].
  - unfold served_of in Hs. by rewrite Hnone in Hs.
  - destruct (foldl _ _ _) as [[pending ran] served]. simpl in Ht. subst pending.
    apply timeout_callback_served in Hs. unfold served_of in Hs.
    destruct (timeout_callback _ _ _ _) as [[pending ran'] served'] eqn:Hcb.
    assert (pending = None) as ->; [|done].
    simpl in Hcb. destruct ran as [r|]; [|by injection Hcb as <- _ _].
    destruct (limit <=? call_now t - r); by injection Hcb as <- _ _.
Qed.
End Served.

Section AllServed.
Variable limit : Z.
Hypothesis limit_nonneg : 0 <= limit.



End AllServed.

(** ** The page under resizes *)

Section PageFacts.
Context {Item : Type}.
Variable offsetHeight : list (list Item) -> nat -> Z.

(** X17. Under a table whose default and entries are at least one, a page
    stays laid out through every sequence of resizes, whatever their times
    and widths: after them the layout object is there, its container holds
    the items in as many columns as its column count, and that count is the
    one of the last width [handleResize] ran for (the initial width when it
    never ran). *)
Theorem after_resizes_keeps_layout (T : Table.t) (items : list Item) (opts : options)
    (w0 : Z) (signals : list (Z * Z)) :
  valid_table T ->
  exists this out,
    layout (after_resizes offsetHeight
              (loaded offsetHeight items opts (Parsed (json_object T)) w0) signals)
    = (Ok this, out)
    /\ well_laid_out T items opts this
    /\ resolve (List.last (handled (after_resizes offsetHeight
                  (loaded offsetHeight items opts (Parsed (json_object T)) w0) signals)) w0) T
       = Ok (columnCount this).
Proof.
  intros HT. unfold after_resizes.
  apply (burst_then_silence_keeps (handleResize_bound offsetHeight) 200
           (fun p => exists this out,
              layout p = (Ok this, out) /\ well_laid_out T items opts this
              /\ resolve (List.last (handled p) w0) T = Ok (columnCount this))).
  - intros [] p (this & out & Hlay & Hwell & Hres).
    destruct (handleResize_well_laid_out offsetHeight T items opts this (innerWidth p)
                HT Hwell) as (this' & out' & Hrun & Hwell' & Hres').
    exists this', (out ++ out'). unfold handleResize_bound.
    cbn [layout handled]. rewrite Hlay. cbn [bind]. rewrite Hrun.
    split; [done|]. split; [done|]. by rewrite last_last.
  - apply Forall_fmap, Forall_forall. intros [t w] _ p. done.
  - destruct (loaded_well_laid_out offsetHeight T items opts w0 HT)
      as (this & out & Hlay & Hwell & Hres).
    by exists this, out.
Qed.



End PageFacts.

(** ** [parseMasonryOptions] *)

Local Open Scope string_scope.

Lemma camelCase_other c s :
  c <> "-"%char -> camelCase (String c s) = String c (camelCase s).
Proof.
  intros Hc. destruct s as [|letter s]; [done|]. simpl.
  by rewrite (proj2 (Ascii.eqb_neq c "-") Hc).
Qed.

Lemma camelCase_hyphen_letter letter s :
  is_lower letter = true ->
  camelCase (String "-" (String letter s)) = String (toUpperCase letter) (camelCase s).
Proof. intros Hl. simpl. by rewrite Hl. Qed.

Lemma upper_of_lower c :
  is_upper c = true ->
  is_lower (ascii_of_nat (nat_of_ascii c + 32)) = true
  /\ toUpperCase (ascii_of_nat (nat_of_ascii c + 32)) = c.
Proof. destruct c as [[] [] [] [] [] [] [] []]; vm_compute; intros; done. Qed.

(** X18. The option name undoes the naming of the attribute: for every
    option name [n] without a hyphen, the attribute [data-masonry-] followed
    by [n] in kebab case has the option name [n]. *)
Theorem optionName_of_kebab_case (n : string) :
  hyphenless n -> optionName ("data-masonry-" ++ kebab_case n) = n.
Proof.
  intros Hn. unfold optionName.
  change (remove_first "data-masonry-" ("data-masonry-" ++ kebab_case n))
    with (kebab_case n).
  induction n as [|c n IH]; [done|]. destruct Hn as [Hc Hn]. simpl kebab_case.
  destruct (is_upper c) eqn:Hupper.
  - destruct (upper_of_lower c Hupper) as [Hlower Hback].
    rewrite camelCase_hyphen_letter by done. by rewrite Hback, IH.
  - rewrite camelCase_other by done. by rewrite IH.
Qed.

Lemma optionName_of_kebab_case_witness :
  hyphenless "sortByHeight" /\ optionName "data-masonry-sort-by-height" = "sortByHeight".
Proof.
  assert (hyphenless "sortByHeight") as H by (repeat split; discriminate).
  split; [exact H|]. exact (optionName_of_kebab_case "sortByHeight" H).
Defined.

Section OptionFacts.
Context {Number Json : Type}.
Variable isNaN : string -> bool.
Variable parseFloat : string -> option Number.
Variable JSON_parse : string -> option Json.
Variable is_zero : Number -> bool.
Variable property_is_true : Json -> string -> bool.

Lemma values_for_cons (n name v : string) (attributes : list (string * string)) :
  values_for n ((name, v) :: attributes)
  = ((if startsWith name "data-masonry-" && String.eqb (optionName name) n
      then [v] else [])
     ++ values_for n attributes)%list.
Proof.
  unfold values_for. simpl.
  by destruct (startsWith name "data-masonry-" && String.eqb (optionName name) n).
Qed.

Lemma last_app_cons {A} (l1 l2 : list A) :
  last (l1 ++ l2) = match last l2 with Some y => Some y | None => last l1 end.
Proof.
  destruct l2 as [|y l2 _] using rev_ind; [by rewrite app_nil_r|].
  by rewrite (assoc_L (++)), !last_snoc.
Qed.

(** An assignment makes an own property of every name but [__proto__], and
    leaves the others as they are. *)
Lemma assign_own (options : @options_object Number Json) (name n : string)
    (v : option_value) :
  own (assign options name v) !! n
  = if String.eqb name "__proto__" then own options !! n
    else if String.eqb name n then Some v else own options !! n.
Proof.
  unfold assign. destruct (String.eqb_spec name "__proto__") as [_|_].
  - by destruct v.
  - cbn [own]. destruct (String.eqb_spec name n) as [->|Hne].
    + apply lookup_insert_eq.
    + by apply lookup_insert_ne.
Qed.

Lemma assign_prototype (options : @options_object Number Json) (name : string)
    (v : option_value) :
  prototype (assign options name v)
  = if String.eqb name "__proto__"
    then match v with value_json j => Some j | _ => prototype options end
    else prototype options.
Proof. unfold assign. destruct (String.eqb name "__proto__"); [by destruct v|done]. Qed.

Lemma parseMasonryOptions_fold (n : string) (attributes : list (string * string))
    (options : @options_object Number Json) :
  let result :=
    foldl (fun options attr =>
             if startsWith attr.1 "data-masonry-"
             then assign options (optionName attr.1)
                    (coerce isNaN parseFloat JSON_parse attr.2)
             else options)
          options attributes in
  own result !! n
  = (if String.eqb n "__proto__" then own options !! n
     else match last (values_for n attributes) with
          | Some v => Some (coerce isNaN parseFloat JSON_parse v)
          | None => own options !! n
          end)
  /\ prototype result
     = match last (objects_of isNaN parseFloat JSON_parse
                     (values_for "__proto__" attributes)) with
       | Some j => Some j
       | None => prototype options
       end.
Proof.
  cbn zeta. revert options.
  induction attributes as [|[name v] attrs IH]; intros options.
  { split; [by destruct (String.eqb n "__proto__")|done]. }
  simpl foldl. cbn [fst snd]. rewrite !values_for_cons.
  destruct (startsWith name "data-masonry-") eqn:Hprefix; cbn [andb]; [|apply IH].
  destruct (IH (assign options (optionName name)
                  (coerce isNaN parseFloat JSON_parse v))) as [-> ->].
  rewrite assign_own, assign_prototype. split.
  - destruct (String.eqb_spec n "__proto__") as [->|Hn].
    + by destruct (String.eqb (optionName name) "__proto__"),
                  (String.eqb_spec (optionName name) "__proto__").
    + destruct (String.eqb_spec (optionName name) n) as [Hname|Hne]; cbn [app].
      * rewrite Hname. destruct (String.eqb_spec n "__proto__"); [done|].
        change (v :: values_for n attrs) with ([v] ++ values_for n attrs)%list.
        rewrite last_app_cons.
        by destruct (last (values_for n attrs)).
      * by destruct (String.eqb (optionName name) "__proto__").
  - unfold objects_of. rewrite omap_app. rewrite last_app_cons.
    fold (objects_of isNaN parseFloat JSON_parse (values_for "__proto__" attrs)).
    destruct (last (objects_of isNaN parseFloat JSON_parse
                      (values_for "__proto__" attrs))); [done|].
    destruct (String.eqb (optionName name) "__proto__"); [|done].
    simpl. by destruct (coerce isNaN parseFloat JSON_parse v).
Qed.

Lemma parseMasonryOptions_own (n : string) (attributes : list (string * string)) :
  n <> "__proto__" ->
  own (parseMasonryOptions isNaN parseFloat JSON_parse attributes) !! n
  = coerce isNaN parseFloat JSON_parse <$> last (values_for n attributes).
Proof.
  intros Hn. unfold parseMasonryOptions.
  rewrite (proj1 (parseMasonryOptions_fold n attributes _)).
  destruct (String.eqb_spec n "__proto__"); [done|].
  by destruct (last (values_for n attributes)).
Qed.

Lemma parseMasonryOptions_prototype (attributes : list (string * string)) :
  prototype (parseMasonryOptions isNaN parseFloat JSON_parse attributes)
  = last (objects_of isNaN parseFloat JSON_parse (values_for "__proto__" attributes)).
Proof.
  unfold parseMasonryOptions.
  rewrite (proj2 (parseMasonryOptions_fold "" attributes _)).
  by destruct (last _).
Qed.

(** X19. The options object has, for every option name [n] but
    [__proto__], the parsed value of the last attribute that starts with
    [data-masonry-] and has the option name [n] as an own property, and no
    such property when no attribute names [n]. It never has an own property
    [__proto__]: the attributes of that option name set its prototype, to
    the last of their values that is an object or an array. Other
    attributes are ignored. *)
Theorem parseMasonryOptions_lookup (n : string) (attributes : list (string * string)) :
  own (parseMasonryOptions isNaN parseFloat JSON_parse attributes) !! n
  = (if String.eqb n "__proto__" then None
     else coerce isNaN parseFloat JSON_parse <$> last (values_for n attributes))
  /\ prototype (parseMasonryOptions isNaN parseFloat JSON_parse attributes)
     = last (objects_of isNaN parseFloat JSON_parse (values_for "__proto__" attributes)).
Proof.
  unfold parseMasonryOptions. split.
  - rewrite (proj1 (parseMasonryOptions_fold n attributes _)). cbn [own].
    rewrite lookup_empty. destruct (String.eqb n "__proto__"); [done|].
    by destruct (last (values_for n attributes)).
  - rewrite (proj2 (parseMasonryOptions_fold n attributes _)). cbn [prototype].
    by destruct (last _).
Qed.

(** X20. A value that is not numeric counts as true unless it is the text
    [false] or empty: [true] is, and so is any other word ([no],
    [False]). *)
Theorem coerce_text_is_true (value : string) :
  isNaN value = true ->
  truthy is_zero (Some (coerce isNaN parseFloat JSON_parse value))
  = negb (String.eqb value "false") && negb (String.eqb value "").
Proof.
  intros Hnan. unfold coerce. rewrite Hnan. simpl negb.
  destruct (String.eqb_spec value "true") as [->|_]; [done|].
  destruct (String.eqb_spec value "false") as [->|_]; [done|]. cbn [negb andb].
  destruct (startsWith value "{" || startsWith value "[") eqn:Hstart; [|done].
  destruct (JSON_parse value); [|done]. simpl.
  destruct value; [done|done].
Qed.

(** An option that no attribute names is read from the prototype, when an
    attribute has set one, and is [undefined] otherwise. *)
Lemma read_option_unnamed (n : string) (attributes : list (string * string)) :
  n <> "__proto__" -> values_for n attributes = [] ->
  read_option is_zero property_is_true
    (parseMasonryOptions isNaN parseFloat JSON_parse attributes) n
  = match last (objects_of isNaN parseFloat JSON_parse
                  (values_for "__proto__" attributes)) with
    | Some j => property_is_true j n
    | None => false
    end.
Proof.
  intros Hn Hnone. unfold read_option.
  by rewrite parseMasonryOptions_own, Hnone, parseMasonryOptions_prototype.
Qed.

(** X21. When no attribute of the container names the option
    [sortByHeight] or [horizontalOrder], and no attribute with the option
    name [__proto__] has an object or an array for its value, the options
    select the sequential strategy. *)
Theorem no_strategy_attribute_is_sequential (attributes : list (string * string)) :
  values_for "sortByHeight" attributes = [] ->
  values_for "horizontalOrder" attributes = [] ->
  objects_of isNaN parseFloat JSON_parse (values_for "__proto__" attributes) = [] ->
  strategy_of (options_read is_zero property_is_true
                 (parseMasonryOptions isNaN parseFloat JSON_parse attributes))
  = sequential.
Proof.
  intros Hh Ho Hp. unfold strategy_of, options_read. cbn [sortByHeight horizontalOrder].
  by rewrite !read_option_unnamed, Hp.
Qed.

(** X28. An attribute [data-masonry-__proto__] whose value is an object or
    an array sets no option of its own name: the value becomes the
    prototype of the options object, and every option that no attribute
    names is read from it. With [sortByHeight] true in the last such value
    and no attribute naming [sortByHeight], the options select the
    shortest-height strategy. *)
Theorem prototype_attribute_is_inherited (attributes : list (string * string)) (j : Json) :
  last (objects_of isNaN parseFloat JSON_parse (values_for "__proto__" attributes))
  = Some j ->
  own (parseMasonryOptions isNaN parseFloat JSON_parse attributes) !! "__proto__" = None
  /\ (forall n, n <> "__proto__" -> values_for n attributes = [] ->
        read_option is_zero property_is_true
          (parseMasonryOptions isNaN parseFloat JSON_parse attributes) n
        = property_is_true j n)
  /\ (values_for "sortByHeight" attributes = [] ->
      property_is_true j "sortByHeight" = true ->
      strategy_of (options_read is_zero property_is_true
                     (parseMasonryOptions isNaN parseFloat JSON_parse attributes))
      = shortest_height).
Proof.
  intros Hj. split; [|split].
  - unfold parseMasonryOptions.
    by rewrite (proj1 (parseMasonryOptions_fold "__proto__" attributes _)).
  - intros n Hn Hnone. by rewrite read_option_unnamed, Hj.
  - intros Hnone Htrue. unfold strategy_of, options_read. cbn [sortByHeight].
    by rewrite read_option_unnamed, Hj, Htrue.
Qed.
End OptionFacts.

Local Close Scope string_scope.

(** ** Instances *)

Lemma T_100_300_thresholds (t v : Z) :
  Table.thresholds T_100_300 !! t = Some v -> (t = 100 /\ v = 1) \/ (t = 300 /\ v = 2).
Proof.
  intros Hv. change (({[100 := 1; 300 := 2]} : gmap Z Z) !! t = Some v) in Hv.
  destruct (decide (t = 100)) as [->|?].
  - rewrite lookup_insert_eq in Hv. left. by injection Hv as <-.
  - rewrite lookup_insert_ne in Hv by done.
    destruct (decide (t = 300)) as [->|?].
    + rewrite lookup_singleton_eq in Hv. right. by injection Hv as <-.
    + by rewrite lookup_singleton_ne in Hv.
Defined.

Lemma T_100_300_valid : valid_table T_100_300.
Proof.
  split; [exists 3; split; [reflexivity|lia]|].
  intros t c [[_ ->]|[_ ->]]%T_100_300_thresholds; lia.
Defined.

Lemma createLayout_invalid_count_raises_witness :
  no_columns (Some (-2)) /\ [1; 2; 3]%nat <> [] /\
  createLayout flat fewest_items_options (Some (-2)) [1; 2; 3]%nat []
  = Throw appendChild_of_undefined.
Proof.
  assert (no_columns (Some (-2))) as H1 by (simpl; lia).
  assert ([1; 2; 3]%nat <> []) as H2 by discriminate.
  split; [exact H1|]. split; [exact H2|].
  exact (createLayout_invalid_count_raises flat fewest_items_options (Some (-2))
           [1; 2; 3]%nat [] H1 H2).
Defined.

Lemma createLayout_column_sizes_witness :
  (0 < 3)%nat /\ strategy_of fewest_items_options <> shortest_height /\
  exists cols,
    createLayout flat fewest_items_options (Some 3) [5; 6; 7; 8; 9; 10; 11]%nat [] = Ok cols
    /\ length cols = 3%nat.
Proof.
  assert (strategy_of fewest_items_options <> shortest_height) as H by discriminate.
  split; [lia|]. split; [exact H|].
  destruct (createLayout_column_sizes flat fewest_items_options 3
              [5; 6; 7; 8; 9; 10; 11]%nat [] ltac:(lia) H) as (cols & H1 & H2 & _).
  exists cols. exact (conj H1 H2).
Defined.

Lemma shortest_height_level_columns_witness :
  (0 < 3)%nat /\ strategy_of shortest_height_options = shortest_height
  /\ (forall cols k, flat cols k = flat cols 0) /\
  createLayout flat shortest_height_options (Some 3) [5; 6; 7]%nat []
  = Ok [[5; 6; 7]; []; []]%nat.
Proof.
  split; [lia|]. split; [reflexivity|]. split; [reflexivity|].
  exact (shortest_height_level_columns flat shortest_height_options 3 [5; 6; 7]%nat []
           ltac:(lia) eq_refl (fun _ _ => eq_refl)).
Defined.

Lemma shortest_height_additive_balance_witness :
  (0 < 2)%nat /\ strategy_of shortest_height_options = shortest_height /\ 0 <= 7
  /\ Forall (fun item => 0 <= Z.of_nat item <= 7) [7; 2; 3; 4]%nat /\
  exists cols,
    createLayout (additive_height Z.of_nat) shortest_height_options (Some 2)
      [7; 2; 3; 4]%nat [] = Ok cols
    /\ additive_height Z.of_nat cols 0 <= additive_height Z.of_nat cols 1 + 7.
Proof.
  assert (Forall (fun item => 0 <= Z.of_nat item <= 7) [7; 2; 3; 4]%nat) as H
    by (repeat constructor; lia).
  split; [lia|]. split; [reflexivity|]. split; [lia|]. split; [exact H|].
  destruct (shortest_height_additive_balance Z.of_nat shortest_height_options 2 7
              [7; 2; 3; 4]%nat [] ltac:(lia) eq_refl ltac:(lia) H) as (cols & H1 & _ & H3).
  exists cols. split; [exact H1|]. apply H3; lia.
Defined.

Lemma shortest_height_uniform_is_sequential_witness :
  (0 < 2)%nat /\ strategy_of shortest_height_options = shortest_height
  /\ strategy_of sequential_options = sequential /\ 0 < 5
  /\ (forall item : nat, (fun _ => 5) item = 5) /\
  createLayout (additive_height (fun _ : nat => 5)) shortest_height_options (Some 2)
    [1; 2; 3]%nat []
  = createLayout flat sequential_options (Some 2) [1; 2; 3]%nat [].
Proof.
  split; [lia|]. split; [reflexivity|]. split; [reflexivity|]. split; [lia|].
  split; [reflexivity|].
  exact (shortest_height_uniform_is_sequential (fun _ : nat => 5) shortest_height_options
           sequential_options 2 5 flat [1; 2; 3]%nat [] [] ltac:(lia) eq_refl eq_refl
           ltac:(lia) (fun _ => eq_refl)).
Defined.

Lemma calculateColumnCount_between_thresholds_witness :
  101 <= 300
  /\ (forall t, is_Some (Table.thresholds T_100_300 !! t) -> ~ (101 <= t < 300))
  /\ calculateColumnCount sequential_options (JObject T_100_300) 101
     = calculateColumnCount sequential_options (JObject T_100_300) 300.
Proof.
  assert (forall t, is_Some (Table.thresholds T_100_300 !! t) -> ~ (101 <= t < 300)) as H.
  { intros t [v [[-> _]|[-> _]]%T_100_300_thresholds]; lia. }
  split; [lia|]. split; [exact H|].
  exact (calculateColumnCount_between_thresholds sequential_options T_100_300 101 300
           ltac:(lia) H).
Defined.

Lemma loaded_valid_table_is_laid_out_witness :
  valid_table T_100_300 /\
  exists this out,
    layout (loaded flat [1; 2; 3]%nat sequential_options (Parsed (json_object T_100_300)) 400)
    = (Ok this, out)
    /\ well_laid_out T_100_300 [1; 2; 3]%nat sequential_options this.
Proof.
  split; [exact T_100_300_valid|].
  destruct (loaded_valid_table_is_laid_out flat T_100_300 [1; 2; 3]%nat sequential_options
              400 T_100_300_valid) as (this & out & H1 & H2 & _).
  exists this, out. exact (conj H1 H2).
Defined.

Lemma example_object_well_laid_out :
  well_laid_out T_100_300 [1; 2; 3]%nat sequential_options example_object.
Proof.
  split; [reflexivity|]. split; [reflexivity|]. split; [reflexivity|].
  exists 2%nat. split; [reflexivity|]. split; [lia|]. split; [reflexivity|].
  simpl. apply perm_skip, perm_swap.
Defined.

Lemma handleResize_keeps_layout_witness :
  valid_table T_100_300
  /\ well_laid_out T_100_300 [1; 2; 3]%nat sequential_options example_object /\
  exists this' out,
    handleResize flat example_object 50 = (Ok this', out)
    /\ well_laid_out T_100_300 [1; 2; 3]%nat sequential_options this'
    /\ resolve 50 T_100_300 = Ok (columnCount this').
Proof.
  split; [exact T_100_300_valid|]. split; [exact example_object_well_laid_out|].
  exact (handleResize_keeps_layout flat T_100_300 [1; 2; 3]%nat sequential_options
           example_object 50 T_100_300_valid example_object_well_laid_out).
Defined.

Lemma handleResize_same_count_is_no_op_witness :
  (calculateColumnCount (masonryOptions example_object) (breakpointCols example_object) 300).1
  = Ok (columnCount example_object)
  /\ (handleResize flat example_object 300).1 = Ok example_object.
Proof.
  assert ((calculateColumnCount (masonryOptions example_object)
             (breakpointCols example_object) 300).1 = Ok (columnCount example_object)) as H
    by (vm_compute; reflexivity).
  split; [exact H|].
  exact (f_equal fst (handleResize_same_count_is_no_op flat example_object 300 H)).
Defined.



Lemma after_resizes_keeps_layout_witness :
  valid_table T_100_300 /\
  exists this out,
    layout (after_resizes flat
              (loaded flat [1; 2; 3]%nat sequential_options
                 (Parsed (json_object T_100_300)) 400)
              [(1000, 250); (1050, 50); (1400, 90)])
    = (Ok this, out)
    /\ well_laid_out T_100_300 [1; 2; 3]%nat sequential_options this.
Proof.
  split; [exact T_100_300_valid|].
  destruct (after_resizes_keeps_layout flat T_100_300 [1; 2; 3]%nat sequential_options 400
              [(1000, 250); (1050, 50); (1400, 90)] T_100_300_valid)
    as (this & out & H1 & H2 & _).
  exists this, out. exact (conj H1 H2).
Defined.


Lemma coerce_text_is_true_witness :
  (fun _ : string => true) "no"%string = true
  /\ truthy (fun x : Z => x =? 0)
       (Some (coerce (fun _ => true) (fun _ => None) (fun _ => @None unit) "no"%string))
     = true.
Proof.
  split; [reflexivity|].
  exact (coerce_text_is_true (fun _ => true) (fun _ => None) (fun _ => @None unit)
           (fun x : Z => x =? 0) "no"%string eq_refl).
Defined.

Lemma no_strategy_attribute_is_sequential_witness :
  values_for "sortByHeight"
    [("class", "grid"); ("data-masonry-debug", "true")]%string = []
  /\ values_for "horizontalOrder"
       [("class", "grid"); ("data-masonry-debug", "true")]%string = []
  /\ objects_of (fun _ => true) (fun _ => @None Z) (fun _ => @None unit)
       (values_for "__proto__"
          [("class", "grid"); ("data-masonry-debug", "true")]%string) = []
  /\ strategy_of
       (options_read (fun x : Z => x =? 0) (fun _ _ => false)
          (parseMasonryOptions (fun _ => true) (fun _ => None) (fun _ => @None unit)
             [("class", "grid"); ("data-masonry-debug", "true")]%string))
     = sequential.
Proof.
  split; [reflexivity|]. split; [reflexivity|]. split; [reflexivity|].
  exact (no_strategy_attribute_is_sequential (fun _ => true) (fun _ => None)
           (fun _ => @None unit) (fun x : Z => x =? 0) (fun _ _ => false)
           [("class", "grid"); ("data-masonry-debug", "true")]%string
           eq_refl eq_refl eq_refl).
Defined.

Lemma prototype_attribute_is_inherited_witness :
  last (objects_of (fun _ => true) (fun _ => @None Z) example_JSON_parse
          (values_for "__proto__"
             [("class", "grid"); ("data-masonry-__proto__", example_object_text)]%string))
  = Some ["sortByHeight"%string]
  /\ values_for "sortByHeight"
       [("class", "grid"); ("data-masonry-__proto__", example_object_text)]%string = []
  /\ example_property_is_true ["sortByHeight"%string] "sortByHeight" = true
  /\ strategy_of
       (options_read (fun x : Z => x =? 0) example_property_is_true
          (parseMasonryOptions (fun _ => true) (fun _ => None) example_JSON_parse
             [("class", "grid"); ("data-masonry-__proto__", example_object_text)]%string))
     = shortest_height.
Proof.
  split; [reflexivity|]. split; [reflexivity|]. split; [reflexivity|].
  exact (proj2 (proj2 (prototype_attribute_is_inherited (fun _ => true) (fun _ => None)
                         example_JSON_parse (fun x : Z => x =? 0) example_property_is_true
                         [("class", "grid");
                          ("data-masonry-__proto__", example_object_text)]%string
                         ["sortByHeight"%string] eq_refl))
           eq_refl eq_refl).
Defined.

(** ** The constructor on an attribute that parses, and bursts of resizes *)



(** X23. An attribute that is the JSON text [null] is not caught by the
    [try]: [null] passes for an object, and the constructor ends by the
    [TypeError] that [Object.keys(null)] raises in [calculateColumnCount],
    for every item list, option set and width. *)
Theorem constructor_raises_on_null {Item : Type} (items : list Item) (opts : options)
    (innerWidth : Z) :
  (constructor items opts (Parsed json_null) innerWidth).1
  = Throw (TypeError "Cannot convert undefined or null to object").
Proof. apply constructor_null. Qed.

(** [parseInt] gives an integer of less than 22 digits back. *)
Lemma parseInt_integer (z : Z) : Z.abs z < 10 ^ 21 -> parseInt (integer z) = z.
Proof.
  intros Hz. unfold parseInt, in_place, integer. cbn [mantissa exponent].
  destruct (Z.eqb_spec z 0) as [->|_]; [done|].
  change (0 <=? 0 + 6) with true. change (0 <=? 0) with true. cbn [andb].
  change (10 ^ 0) with 1. rewrite !Z.mul_1_r.
  by destruct (Z.ltb_spec (Z.abs z) (10 ^ 21)); [|lia].
Qed.

(** X24. An attribute that is an integer [z] in the safe range gives a
    table with the default [z] and no threshold: [parseInt] reads the
    number back from its digits, the column count is [z] at every width,
    and nothing is reported as invalid. *)
Theorem constructor_number_is_default {Item : Type} (items : list Item) (opts : options)
    (z innerWidth : Z) :
  Z.abs z <= MAX_SAFE_INTEGER ->
  constructor items opts (Parsed (json_number (integer z))) innerWidth
  = (Ok {| container := []; originalItems := items;
           breakpointCols := JObject (Table.mk ∅ (Some z)); columnCount := Some z;
           masonryOptions := opts |},
     if debug opts
     then [log_parsed (JObject (Table.mk ∅ (Some z))); log_options opts]
     else []).
Proof.
  intros Hz. unfold constructor, parse_breakpointCols.
  rewrite (parseInt_integer z).
  - by destruct (debug opts).
  - eapply Z.le_lt_trans; [exact Hz|]. by vm_compute.
Qed.

Lemma constructor_number_is_default_witness :
  Z.abs 3 <= MAX_SAFE_INTEGER
  /\ constructor [1; 2; 3]%nat sequential_options (Parsed (json_number (integer 3))) 800
     = (Ok {| container := []; originalItems := [1; 2; 3]%nat;
              breakpointCols := JObject (Table.mk ∅ (Some 3)); columnCount := Some 3;
              masonryOptions := sequential_options |}, []).
Proof.
  assert (Z.abs 3 <= MAX_SAFE_INTEGER) as H by (vm_compute; discriminate).
  split; [exact H|].
  exact (constructor_number_is_default [1; 2; 3]%nat sequential_options 3 800 H).
Defined.

(** The first digit [d] of [m >= 1]: [m] lies between [d] and [d + 1] times
    a power of ten. *)
Lemma first_digit_of_spec (fuel : nat) (m : Z) :
  1 <= m < 2 ^ (Z.of_nat fuel + 1) ->
  exists k, 0 <= k /\ 1 <= first_digit_of fuel m <= 9
    /\ first_digit_of fuel m * 10 ^ k <= m < (first_digit_of fuel m + 1) * 10 ^ k.
Proof.
  revert m. induction fuel as [|fuel IH]; intros m Hm.
  - change (2 ^ (Z.of_nat 0 + 1)) with 2 in Hm. exists 0. simpl. lia.
  - cbn [first_digit_of]. destruct (Z.ltb_spec m 10) as [Hlt|Hge].
    + exists 0. change (10 ^ 0) with 1. lia.
    + assert (2 ^ (Z.of_nat (S fuel) + 1) = 2 * 2 ^ (Z.of_nat fuel + 1)) as Hpow.
      { replace (Z.of_nat (S fuel) + 1) with (Z.succ (Z.of_nat fuel + 1)) by lia.
        apply Z.pow_succ_r. lia. }
      pose proof (Z.div_mod m 10 ltac:(lia)) as Hdiv.
      pose proof (Z.mod_pos_bound m 10 ltac:(lia)) as Hmod.
      destruct (IH (m / 10)) as (k & Hk & Hd & Hlo & Hhi); [lia|].
      exists (Z.succ k). split; [lia|]. split; [done|].
      rewrite Z.pow_succ_r by done. lia.
Qed.

Lemma first_digit_spec (m : Z) :
  1 <= m ->
  exists k, 0 <= k /\ 1 <= first_digit m <= 9
    /\ first_digit m * 10 ^ k <= m < (first_digit m + 1) * 10 ^ k.
Proof.
  intros Hm. apply first_digit_of_spec.
  pose proof (Z.log2_spec m ltac:(lia)) as Hlog. pose proof (Z.log2_nonneg m) as Hnn.
  rewrite Z2Nat.id by done. rewrite Z.add_1_r. lia.
Qed.

(** X27. A number attribute of 10^21 or more does not give that many
    columns: its text is in the form with an exponent, of which [parseInt]
    reads the digit before the point. For the number [m * 10^e] with [m] of
    at most 15 digits (so that the digits of its text are those of [m]) and
    [e >= 0], the constructor returns normally, reports nothing as invalid,
    and the column count at every width is the first digit [d] of [m],
    between 1 and 9. *)
Theorem constructor_large_number_is_first_digit {Item : Type} (items : list Item)
    (opts : options) (m e innerWidth : Z) :
  1 <= m < 10 ^ 15 -> 0 <= e -> 10 ^ 21 <= m * 10 ^ e <= largest_number ->
  exists d k,
    1 <= d <= 9 /\ 0 <= k /\ d * 10 ^ k <= m < (d + 1) * 10 ^ k
    /\ constructor items opts
         (Parsed (json_number {| mantissa := m; exponent := e |})) innerWidth
       = (Ok {| container := []; originalItems := items;
                breakpointCols := JObject (Table.mk ∅ (Some d)); columnCount := Some d;
                masonryOptions := opts |},
          if debug opts
          then [log_parsed (JObject (Table.mk ∅ (Some d))); log_options opts]
          else []).
Proof.
  intros Hm He Hlarge.
  destruct (first_digit_spec m (proj1 Hm)) as (k & Hk & Hd & Hbetween).
  exists (first_digit m), k. split; [done|]. split; [done|]. split; [done|].
  assert (parseInt {| mantissa := m; exponent := e |} = first_digit m) as Hparse.
  { unfold parseInt, in_place. cbn [mantissa exponent].
    destruct (Z.eqb_spec m 0); [lia|].
    rewrite (Z.abs_eq m) by lia.
    destruct (Z.leb_spec 0 (e + 6)); [|lia]. destruct (Z.leb_spec 0 e); [|lia].
    destruct (Z.ltb_spec (m * 10 ^ e) (10 ^ 21)); [lia|]. cbn [andb].
    rewrite Z.sgn_pos by lia. lia. }
  unfold constructor, parse_breakpointCols. rewrite Hparse. by destruct (debug opts).
Qed.

Lemma constructor_large_number_is_first_digit_witness :
  1 <= 1 < 10 ^ 15 /\ 0 <= 21 /\ 10 ^ 21 <= 1 * 10 ^ 21 <= largest_number
  /\ (constructor [1; 2; 3]%nat sequential_options
        (Parsed (json_number {| mantissa := 1; exponent := 21 |})) 800).1
     = Ok {| container := []; originalItems := [1; 2; 3]%nat;
             breakpointCols := JObject (Table.mk ∅ (Some 1)); columnCount := Some 1;
             masonryOptions := sequential_options |}.
Proof.
  assert (10 ^ 21 <= 1 * 10 ^ 21 <= largest_number) as H
    by (split; vm_compute; discriminate).
  assert (1 <= 1 < 10 ^ 15) as H0 by (split; vm_compute; [discriminate|reflexivity]).
  split; [exact H0|]. split; [lia|]. split; [exact H|].
  destruct (constructor_large_number_is_first_digit [1; 2; 3]%nat sequential_options
              1 21 800 H0 ltac:(lia) H) as (d & k & Hd & Hk & Hbetween & Hrun).
  assert (d = 1) as ->.
  { pose proof (Z.pow_pos_nonneg 10 k ltac:(lia) Hk). nia. }
  by rewrite Hrun.
Defined.
